(** * sfz-router: the debounced Program Change router

    A shallow embedding of [sfz-router.py]: the persisted last program
    ([load_last_program], [save_last_program]) and the body of the polling
    loop of [main], which turns Program Change messages of the SL88 into
    [load_instrument] commands on the standard input of sfizz.

    Conventions of the embedding.
    - Python integers are [Z]; the data bytes of a MIDI message are a
      [list Z]; [SFZ_MAP] is a [gmap Z string].
    - [time.monotonic()] returns seconds; its readings are exact rationals
      here ([Q]), and each reading the loop takes is an input of the tick.
      The examples use readings that binary floating point represents
      exactly.
    - Input and output are explicit: what the outside world answers in one
      iteration (the polled message, the clock, whether the disk and the
      pipe accept a write) is a [tick_input]; what the iteration does to the
      outside world is a list of [effect]s.
    - An uncaught Python exception is the [Raise] branch of [outcome].

    Opening the MIDI ports, starting sfizz, the JACK connections, the
    [time.sleep] that ends an iteration and the shutdown path do not touch
    the state of the loop and are left out. *)

From Stdlib Require Import ZArith QArith Lqa String Ascii List DecimalString.
From stdpp Require Import base decidable option list gmap strings pretty.

Local Open Scope string_scope.
Local Open Scope list_scope.
Local Open Scope Z_scope.

(** ** Configuration (the USER CONFIG block) *)

Definition COMMON_CHANNEL : Z := 1.

Definition SFZ_MAP : gmap Z string :=
  list_to_map
    [ (10, "/root/sfz/Wurlitzer/Wurlitzer.sfz");
      (11, "/root/sfz/Clavinet/Clavinet.sfz");
      (12, "/root/sfz/K18-Upright-Piano/K18-Upright-Piano.sfz");
      (13, "/root/sfz/SalamanderGrandPianoV6/sfz_daw/Accurate-SalamanderGrandPiano_flat.Recommended.sfz");
      (14, "/root/sfz/GregSullivan.E-Pianos-master/PianetT/PianetT.sfz");
      (15, "/root/sfz/GregSullivan.E-Pianos-master/EP200/EP200.sfz");
      (16, "/root/sfz/jRhodes3d/jlearman.jRhodes3d-master/jRhodes3d-st/_jRhodes3d-st-flac.sfz") ].

Definition DEBOUNCE_SECONDS : Q := 0.5.

(** ** Exceptions, effects and the outside world *)

Inductive exn := IndexError | KeyError | ValueError | OSError.

Inductive outcome (A : Type) :=
| Return (a : A)
| Raise (e : exn).
Arguments Return {A} a.
Arguments Raise {A} e.

#[global] Instance outcome_bind : MBind outcome := λ A B k m,
  match m with
  | Return a => k a
  | Raise e => Raise e
  end.

(** [try: m  except Exception as e: handler e] *)
Definition try_except {A} (m : outcome A) (handler : exn → outcome A) : outcome A :=
  match m with
  | Return a => Return a
  | Raise e => handler e
  end.

(** [LAST_PROG_FILE] as the program finds it: not there, there but failing
    to open or to read, or there with some text. *)
Inductive file :=
| Missing
| Unreadable
| Contents (text : string).

(** What [open(LAST_PROG_FILE, "w")] followed by a write can do: succeed,
    fail to open (the file stays as it was), or fail after the open has
    truncated the file. *)
Inductive io_result := IoOk | OpenFailed | WriteFailed.

Inductive log_msg :=
| LogReadFailed (e : exn)
| LogSaveFailed
| LogProgramChange (channel program : Z)
| LogDebouncedLoad (program : Z) (sfz_path : string)
| LogSendError.

Inductive effect :=
| Log (m : log_msg)
| WriteFile (text : string) (r : io_result)
| EngineWrite (cmd : string) (ok : bool).

(** What the file holds after a write. This is about the text in the file,
    not about who may read it: a write leaves the permissions as they were,
    so what a later [open(LAST_PROG_FILE, "r")] finds is [read_back], not
    the bare result of the write. *)
Definition write_file (f : file) (text : string) (r : io_result) : file :=
  match r with
  | IoOk => Contents text
  | OpenFailed => f
  | WriteFailed => Contents EmptyString
  end.

(** What a later reader finds when the file was [before] and the writes
    since have left it holding [after]: a file that could not be opened or
    read before the writes still cannot, whatever it now holds. *)
Definition read_back (before after : file) : file :=
  match before with
  | Unreadable => Unreadable
  | _ => after
  end.

(** The file after a list of effects, oldest first. *)
Definition file_after (f : file) (tr : list effect) : file :=
  fold_left
    (fun f e => match e with WriteFile text r => write_file f text r | _ => f end)
    tr f.

Definition engine_writes (tr : list effect) : list (string * bool) :=
  omap (fun e => match e with EngineWrite cmd ok => Some (cmd, ok) | _ => None end) tr.

Definition file_writes (tr : list effect) : list (string * io_result) :=
  omap (fun e => match e with WriteFile text r => Some (text, r) | _ => None end) tr.

(** [str(program)] *)
Definition str (program : Z) : string := pretty program.

(** [data[i]] for a non-negative literal index *)
Definition index (data : list Z) (i : nat) : outcome Z :=
  match data !! i with
  | Some b => Return b
  | None => Raise IndexError
  end.

(** ** The persisted program *)

Section LastProgram.

(** [int(text.strip())]: [None] stands for the [ValueError] of a text that
    is not an integer literal. *)
Variable int_of_text : string → option Z.

Definition exists_ (f : file) : bool :=
  match f with Missing => false | _ => true end.

(** The body of the [try] of [load_last_program]. *)
Definition read_last_program (default_prog : Z) (f : file) : outcome Z :=
  match f with
  | Missing | Unreadable => Raise OSError
  | Contents text =>
      match int_of_text text with
      | None => Raise ValueError
      | Some val =>
          if bool_decide (is_Some (SFZ_MAP !! val)) then Return val
          else Return default_prog
      end
  end.

Definition load_last_program (f : file) : outcome (Z * list effect) :=
  let default_prog := 10 in
  if negb (exists_ f) then Return (default_prog, [])
  else
    try_except
      (val ← read_last_program default_prog f; Return (val, []))
      (fun e => Return (default_prog, [Log (LogReadFailed e)])).

End LastProgram.

Definition save_last_program (program : Z) (r : io_result) : list effect :=
  match r with
  | IoOk => [WriteFile (str program) r]
  | _ => [WriteFile (str program) r; Log LogSaveFailed]
  end.

(** ** The loop of [main] *)

Record RouterState := {
  current_program : Z;
  last_requested_program : Z;
  last_request_time : Q
}.

Record tick_input := {
  in_msg : option (list Z * Q);   (* midiin.get_message() *)
  clock_recv : Q;                 (* time.monotonic() on receiving a change *)
  clock_now : Q;                  (* time.monotonic() of the debounce check *)
  disk : io_result;               (* what the disk does on a save *)
  pipe_ok : bool                  (* whether sfizz.stdin takes the command *)
}.

Definition common_midi_channel : Z := COMMON_CHANNEL - 1.

(** [force_initial_program]: the message sent to the SL88 at startup. *)
Definition force_initial_program (program : Z) : list Z :=
  let status := Z.lor 0xC0 common_midi_channel in
  [status; program].

(** The state the loop starts in; [t0] is the clock at that moment. *)
Definition initial_state (default_prog : Z) (t0 : Q) : RouterState :=
  {| current_program := default_prog;
     last_requested_program := default_prog;
     last_request_time := t0 |}.

Definition load_command (sfz_path : string) : string :=
  "load_instrument " +:+ sfz_path +:+ String (ascii_of_nat 10) EmptyString.

(** The first half of an iteration: poll one message and, on a Program Change
    of the common channel, note the request. *)
Definition on_message (inp : tick_input) (st : RouterState)
  : outcome (RouterState * list effect) :=
  match in_msg inp with
  | None => Return (st, [])
  | Some (data, _delta) =>
      status ← index data 0;
      let status_type := Z.land status 0xF0 in
      let channel := Z.land status 0x0F in
      if bool_decide (status_type = 0xC0) && bool_decide (channel = common_midi_channel)
      then
        program ← index data 1;
        Return ({| current_program := current_program st;
                   last_requested_program := program;
                   last_request_time := clock_recv inp |},
                [Log (LogProgramChange (channel + 1) program)])
      else Return (st, [])
  end.

Definition lookup_item (program : Z) : outcome string :=
  match SFZ_MAP !! program with
  | Some sfz_path => Return sfz_path
  | None => Raise KeyError
  end.

(** The second half: the debounce check and, when it passes, the load. *)
Definition debounce_check (inp : tick_input) (st : RouterState)
  : outcome (RouterState * list effect) :=
  let now := clock_now inp in
  if bool_decide (is_Some (SFZ_MAP !! last_requested_program st))
     && bool_decide (last_requested_program st ≠ current_program st)
     && Qle_bool DEBOUNCE_SECONDS (now - last_request_time st)
  then
    let program := last_requested_program st in
    sfz_path ← lookup_item program;
    let cmd := load_command sfz_path in
    let before := Log (LogDebouncedLoad program sfz_path) :: save_last_program program (disk inp) in
    if pipe_ok inp
    then Return ({| current_program := program;
                    last_requested_program := last_requested_program st;
                    last_request_time := last_request_time st |},
                 before ++ [EngineWrite cmd true])
    else Return (st, before ++ [EngineWrite cmd false; Log LogSendError])
  else Return (st, []).

(** One iteration of [while True]. *)
Definition tick (inp : tick_input) (st : RouterState)
  : outcome (RouterState * list effect) :=
  '(st1, tr1) ← on_message inp st;
  '(st2, tr2) ← debounce_check inp st1;
  Return (st2, tr1 ++ tr2).

(** The loop over the inputs of finitely many iterations: the state and the
    effects of each completed iteration, then the state reached or the
    exception that ended the loop. *)
Fixpoint run (inps : list tick_input) (st : RouterState)
  : list (RouterState * list effect) * outcome RouterState :=
  match inps with
  | [] => ([], Return st)
  | inp :: rest =>
      match tick inp st with
      | Raise e => ([], Raise e)
      | Return (st', tr) =>
          let '(hist, res) := run rest st' in ((st', tr) :: hist, res)
      end
  end.

(** ** Vocabulary of the statements *)

(** The debounce condition of the loop, for the engine's program [cur] and
    the request held in [st], at clock reading [now]. *)
Definition commit_due (cur : Z) (st : RouterState) (now : Q) : Prop :=
  is_Some (SFZ_MAP !! last_requested_program st)
  ∧ last_requested_program st ≠ cur
  ∧ (DEBOUNCE_SECONDS <= now - last_request_time st)%Q.

(** A message whose status byte is a Program Change of the common channel. *)
Definition is_program_change (data : list Z) : bool :=
  match data with
  | status :: _ =>
      bool_decide (Z.land status 0xF0 = 0xC0)
      && bool_decide (Z.land status 0x0F = common_midi_channel)
  | [] => false
  end.

(** The program requested by the message of a tick, if it carries one. *)
Definition request (inp : tick_input) : option Z :=
  match in_msg inp with
  | Some (data, _) => if is_program_change data then data !! 1%nat else None
  | None => None
  end.

(** A tick without a request: nothing polled, or a message of another kind
    or another channel. *)
Definition quiet (inp : tick_input) : Prop :=
  match in_msg inp with
  | Some (data, _) => data ≠ [] ∧ is_program_change data = false
  | None => True
  end.

(** The requests of a run as the loop records them: the clock reading taken
    on receipt, and the program. *)
Definition pc_events (inps : list tick_input) : list (Q * Z) :=
  omap (fun inp => p ← request inp; Some (clock_recv inp, p)) inps.

(** Consecutive readings less than [d] apart. *)
Fixpoint gaps_below (d : Q) (ts : list Q) : Prop :=
  match ts with
  | t1 :: (t2 :: _) as rest => (t2 - t1 < d)%Q ∧ gaps_below d rest
  | _ => True
  end.

(** The clock never runs backwards: [c] is the reading before the run. *)
Fixpoint clock_monotone (c : Q) (inps : list tick_input) : Prop :=
  match inps with
  | [] => True
  | inp :: rest =>
      (c <= clock_recv inp)%Q ∧ (clock_recv inp <= clock_now inp)%Q
      ∧ clock_monotone (clock_now inp) rest
  end.

(** The state a successful load leaves. *)
Definition loaded (st : RouterState) : RouterState :=
  {| current_program := last_requested_program st;
     last_requested_program := last_requested_program st;
     last_request_time := last_request_time st |}.

(** The effects of a load attempt for [program] at [sfz_path]. *)
Definition load_effects (inp : tick_input) (program : Z) (sfz_path : string)
  : list effect :=
  Log (LogDebouncedLoad program sfz_path) :: save_last_program program (disk inp)
  ++ (if pipe_ok inp then [EngineWrite (load_command sfz_path) true]
      else [EngineWrite (load_command sfz_path) false; Log LogSendError]).

(** The writes among the effects (to the file and to the engine), in order. *)
Definition writes (tr : list effect) : list effect :=
  List.filter (fun e => match e with Log _ => false | _ => true end) tr.

(** All effects of a history, oldest first. *)
Definition effects_of (hist : list (RouterState * list effect)) : list effect :=
  concat (map snd hist).

(** A message the loop can decode: it has a status byte, and a Program
    Change of the common channel has its program byte. *)
Definition complete_message (data : list Z) : Prop :=
  data ≠ [] ∧ (is_program_change data = true → (2 <= length data)%nat).

Definition complete (inp : tick_input) : Prop :=
  match in_msg inp with
  | Some (data, _) => complete_message data
  | None => True
  end.

(** Inputs for the examples: a tick at clock reading [t] that polls nothing,
    one that polls a Program Change of the common channel, and the same
    ticks with the pipe to the engine broken. *)
Definition idle_at (t : Q) : tick_input :=
  {| in_msg := None; clock_recv := t; clock_now := t;
     disk := IoOk; pipe_ok := true |}.

Definition change_at (t : Q) (program : Z) : tick_input :=
  {| in_msg := Some ([0xC0; program], 0%Q); clock_recv := t; clock_now := t;
     disk := IoOk; pipe_ok := true |}.

Definition broken_pipe (inp : tick_input) : tick_input :=
  {| in_msg := in_msg inp; clock_recv := clock_recv inp;
     clock_now := clock_now inp; disk := disk inp; pipe_ok := false |}.

Definition clavinet : string := "/root/sfz/Clavinet/Clavinet.sfz".

(** A plain decimal literal read as an integer: an instance of
    [int_of_text] for the examples. *)
Definition decimal_int (text : string) : option Z :=
  Z.of_int <$> NilZero.int_of_string text.

(** ** Startup: the ports, sfizz and JACK *)

Definition SFIZZ_BIN : string := "/usr/local/bin/sfizz_jack".

Definition SFIZZ_CLIENT_NAME : string := "sfizz-sl88".

(** The entries of the [SFZ_MAP] display, in the order they are written:
    the order in which a Python dictionary iterates. *)
Definition SFZ_ITEMS : list (Z * string) :=
  [ (10, "/root/sfz/Wurlitzer/Wurlitzer.sfz");
    (11, "/root/sfz/Clavinet/Clavinet.sfz");
    (12, "/root/sfz/K18-Upright-Piano/K18-Upright-Piano.sfz");
    (13, "/root/sfz/SalamanderGrandPianoV6/sfz_daw/Accurate-SalamanderGrandPiano_flat.Recommended.sfz");
    (14, "/root/sfz/GregSullivan.E-Pianos-master/PianetT/PianetT.sfz");
    (15, "/root/sfz/GregSullivan.E-Pianos-master/EP200/EP200.sfz");
    (16, "/root/sfz/jRhodes3d/jlearman.jRhodes3d-master/jRhodes3d-st/_jRhodes3d-st-flac.sfz") ].

(** What can end the startup: the [RuntimeError]s of the port search, an
    error of the MIDI library, a failure to spawn sfizz, the [StopIteration]
    of [next] on an empty iterator, [sys.exit], and the exceptions of the
    loop's own code. *)
Inductive startup_exn :=
| RuntimeError (msg : string)
| MidiError
| SpawnError
| StopIteration
| SystemExit (code : Z)
| Uncaught (e : exn).

Inductive direction := MidiIn | MidiOut.

Inductive startup_log :=
| LogOpened (d : direction) (fallback : bool) (name : string) (idx : nat)
| LogPortError (e : startup_exn)
| LogLastProgram (program : Z)
| LogForced (program : Z) (channel : Z)
| LogStarting (cmdline : string)
| LogJack (src dest : string)
| LogJackFailed (midi : bool) (src : string)
| LogReady.

Inductive startup_effect :=
| SLog (m : startup_log)
| FromLoad (e : effect)
| OpenPort (d : direction) (idx : nat)
| SendMessage (msg : list Z)
| Popen (cmd : list string)
| SleepFor (seconds : Q)
| JackConnect (src dest : string) (spawned : bool).

(** A computation of the startup: the effects so far, then a value or the
    exception that was raised. *)
Inductive io (A : Type) :=
| Done (tr : list startup_effect) (a : A)
| Failed (tr : list startup_effect) (e : startup_exn).
Arguments Done {A} tr a.
Arguments Failed {A} tr e.

Definition prepend {A} (tr : list startup_effect) (m : io A) : io A :=
  match m with
  | Done tr' a => Done (tr ++ tr') a
  | Failed tr' e => Failed (tr ++ tr') e
  end.

#[global] Instance io_bind : MBind io := λ A B k m,
  match m with
  | Done tr a => prepend tr (k a)
  | Failed tr e => Failed tr e
  end.

Definition trace_of {A} (m : io A) : list startup_effect :=
  match m with Done tr _ => tr | Failed tr _ => tr end.

Definition emit (e : startup_effect) : io unit := Done [e] tt.

Definition raise {A} (e : startup_exn) : io A := Failed [] e.

(** [needle in hay] on strings. *)
Fixpoint contains (needle hay : string) : bool :=
  String.prefix needle hay
  || match hay with
     | EmptyString => false
     | String _ rest => contains needle rest
     end.

(** [for idx, name in enumerate(ports): if needle in name: ...]: the first
    port whose name contains [needle], counting from [idx]. *)
Fixpoint first_match (needle : string) (idx : nat) (ports : list string)
  : option (nat * string) :=
  match ports with
  | [] => None
  | name :: rest =>
      if contains needle name then Some (idx, name)
      else first_match needle (S idx) rest
  end.

Definition open_port (d : direction) (idx : nat) (ok : bool) : io unit :=
  if ok then emit (OpenPort d idx) else raise MidiError.

Definition no_ports_msg (d : direction) : string :=
  match d with
  | MidiIn => "No ALSA MIDI ports found."
  | MidiOut => "No ALSA MIDI OUT ports found."
  end.

Definition not_found_msg (d : direction) : string :=
  match d with
  | MidiIn => "Could not find an SL CTRL or SL* MIDI IN port."
  | MidiOut => "Could not find an SL CTRL or SL* MIDI OUT port."
  end.

(** The common text of [open_sl_ctrl_in] and [open_sl_ctrl_out]: [ports] is
    what [get_ports()] lists, [open_ok] whether [open_port] succeeds. The
    port object returned is identified by the index opened. *)
Definition open_sl_ctrl (d : direction) (ports : list string) (open_ok : bool)
  : io (nat * string) :=
  if bool_decide (ports = []) then raise (RuntimeError (no_ports_msg d))
  else
    match first_match "SL CTRL" 0 ports with
    | Some (idx, name) =>
        _ ← open_port d idx open_ok;
        _ ← emit (SLog (LogOpened d false name idx));
        Done [] (idx, name)
    | None =>
        match first_match "SL" 0 ports with
        | Some (idx, name) =>
            _ ← open_port d idx open_ok;
            _ ← emit (SLog (LogOpened d true name idx));
            Done [] (idx, name)
        | None => raise (RuntimeError (not_found_msg d))
        end
    end.

Definition open_sl_ctrl_in : list string → bool → io (nat * string) :=
  open_sl_ctrl MidiIn.

Definition open_sl_ctrl_out : list string → bool → io (nat * string) :=
  open_sl_ctrl MidiOut.

(** The truth value of a string: the empty string is false. *)
Definition truthy (s : string) : bool :=
  match s with EmptyString => false | _ => true end.

(** [next(iter(SFZ_MAP.values()))] *)
Definition first_value : io string :=
  match SFZ_ITEMS with
  | (_, sfz_path) :: _ => Done [] sfz_path
  | [] => raise StopIteration
  end.

(** [SFZ_MAP.get(default_program) or next(iter(SFZ_MAP.values()))] *)
Definition default_sfz_of (default_program : Z) : io string :=
  match SFZ_MAP !! default_program with
  | Some sfz_path => if truthy sfz_path then Done [] sfz_path else first_value
  | None => first_value
  end.

(** [' '.join(cmd)] *)
Fixpoint join_spaces (cmd : list string) : string :=
  match cmd with
  | [] => EmptyString
  | [arg] => arg
  | arg :: rest => arg +:+ " " +:+ join_spaces rest
  end.

(** [start_sfizz]: the process started is identified by its command line;
    [spawn_ok] is whether [subprocess.Popen] succeeds. *)
Definition start_sfizz (default_program : Z) (spawn_ok : bool) : io (list string) :=
  default_sfz ← default_sfz_of default_program;
  let cmd := [SFIZZ_BIN; "--client_name"; SFIZZ_CLIENT_NAME;
              "--jack_autoconnect"; default_sfz] in
  _ ← emit (SLog (LogStarting (join_spaces cmd)));
  if spawn_ok then _ ← emit (Popen cmd); Done [] cmd
  else raise SpawnError.

Definition midi_sources : list string :=
  ["system:midi_capture_1"; "system:midi_capture_2";
   "system:midi_capture_3"; "system:midi_capture_4"].

Definition midi_dest : string := SFIZZ_CLIENT_NAME +:+ ":input".

Definition audio_pairs : list (string * string) :=
  [ (SFIZZ_CLIENT_NAME +:+ ":output_1", "system:playback_1");
    (SFIZZ_CLIENT_NAME +:+ ":output_2", "system:playback_2") ].

(** One [jack_connect] inside its [try]: [spawned] is whether
    [subprocess.run] returns, whatever the exit status, rather than raises. *)
Definition jack_connect (midi : bool) (src dest : string) (spawned : bool)
  : list startup_effect :=
  if spawned then [JackConnect src dest true; SLog (LogJack src dest)]
  else [JackConnect src dest false; SLog (LogJackFailed midi src)].

(** [jack_autoconnect]: [spawns src dest] is whether the [jack_connect] of
    that pair can be run. *)
Definition jack_autoconnect (spawns : string → string → bool) : list startup_effect :=
  SleepFor 1
  :: flat_map (fun src => jack_connect true src midi_dest (spawns src midi_dest))
       midi_sources
  ++ flat_map (fun '(src, dest) => jack_connect false src dest (spawns src dest))
       audio_pairs.

(** [force_initial_program] with its output: [ok] is whether
    [send_message] succeeds. *)
Definition send_initial_program (program : Z) (ok : bool) : io unit :=
  if ok then
    _ ← emit (SendMessage (force_initial_program program));
    emit (SLog (LogForced program COMMON_CHANNEL))
  else raise MidiError.

(** What the world answers during the startup. *)
Record startup_world := {
  in_ports : list string;               (* MidiIn().get_ports() *)
  out_ports : list string;              (* MidiOut().get_ports() *)
  open_in_ok : bool;
  open_out_ok : bool;
  last_prog_file : file;
  send_ok : bool;                       (* midiout.send_message *)
  spawn_ok : bool;                      (* subprocess.Popen *)
  jack_spawns : string → string → bool; (* subprocess.run of jack_connect *)
  clock_start : Q                       (* time.monotonic() before the loop *)
}.

(** [except Exception] does not catch [SystemExit]. *)
Definition is_exception (e : startup_exn) : bool :=
  match e with SystemExit _ => false | _ => true end.

(** The two [open_sl_ctrl] calls of [main] and their [except]. *)
Definition open_ports (w : startup_world) : io ((nat * string) * (nat * string)) :=
  match
    (midiin ← open_sl_ctrl_in (in_ports w) (open_in_ok w);
     midiout ← open_sl_ctrl_out (out_ports w) (open_out_ok w);
     Done [] (midiin, midiout))
  with
  | Done tr ports => Done tr ports
  | Failed tr e =>
      if is_exception e then Failed (tr ++ [SLog (LogPortError e)]) (SystemExit 1)
      else Failed tr e
  end.

Section Startup.

Variable int_of_text : string → option Z.

Definition read_program (f : file) : io Z :=
  match load_last_program int_of_text f with
  | Return (program, log) => Done (map FromLoad log) program
  | Raise e => raise (Uncaught e)
  end.

(** [main] up to the loop: the state the loop starts in. *)
Definition main_startup (w : startup_world) : io RouterState :=
  _ ← open_ports w;
  default_prog ← read_program (last_prog_file w);
  _ ← emit (SLog (LogLastProgram default_prog));
  _ ← send_initial_program default_prog (send_ok w);
  _ ← start_sfizz default_prog (spawn_ok w);
  _ ← Done (jack_autoconnect (jack_spawns w)) tt;
  _ ← emit (SLog LogReady);
  Done [] (initial_state default_prog (clock_start w)).

End Startup.

(** ** More vocabulary *)

(** The commands the engine has accepted, oldest first. *)
Definition accepted (tr : list effect) : list string :=
  omap (fun w : string * bool => if w.2 then Some w.1 else None)
    (engine_writes tr).

(** The state after the last completed iteration of a history that started
    in [st]. *)
Definition last_state (st : RouterState) (hist : list (RouterState * list effect))
  : RouterState :=
  default st (fst <$> last hist).

(** Disk and pipe both in order, for every iteration. *)
Definition healthy (inps : list tick_input) : Prop :=
  Forall (fun inp => disk inp = IoOk ∧ pipe_ok inp = true) inps.

(** The connections [jack_connect] was asked for, in order. *)
Definition connections (tr : list startup_effect) : list (string * string) :=
  omap (fun e => match e with JackConnect src dest _ => Some (src, dest) | _ => None end) tr.

(** Effects that reach neither the SL88, nor sfizz, nor JACK: log lines and
    the opening of a port. *)
Definition local_only (e : startup_effect) : Prop :=
  match e with
  | SLog _ | OpenPort _ _ => True
  | _ => False
  end.

(** The ports phase of the startup can succeed. *)
Definition ports_usable (w : startup_world) : Prop :=
  Exists (fun name => contains "SL" name = true) (in_ports w)
  ∧ open_in_ok w = true
  ∧ Exists (fun name => contains "SL" name = true) (out_ports w)
  ∧ open_out_ok w = true.

(** The messages sent to the SL88, in order. *)
Definition messages (tr : list startup_effect) : list (list Z) :=
  omap (fun e => match e with SendMessage msg => Some msg | _ => None end) tr.

(** The command line of one [jack_connect]. *)
Definition jack_connect_cmd (src dest : string) : list string :=
  ["jack_connect"; src; dest].

(** Every child process: sfizz from [subprocess.Popen], and each
    [jack_connect] that [subprocess.run] could run. *)
Definition processes (tr : list startup_effect) : list (list string) :=
  omap (fun e => match e with
                 | Popen cmd => Some cmd
                 | JackConnect src dest true => Some (jack_connect_cmd src dest)
                 | _ => None
                 end) tr.

(** The [jack_connect] commands of [jack_autoconnect] that can be run. *)
Definition jack_children (spawns : string → string → bool) : list (list string) :=
  map (fun c : string * string => jack_connect_cmd c.1 c.2)
    (List.filter (fun c : string * string => spawns c.1 c.2)
       (map (fun src => (src, midi_dest)) midi_sources ++ audio_pairs)).

Definition wurlitzer : string := "/root/sfz/Wurlitzer/Wurlitzer.sfz".

(** The command line of sfizz for an SFZ file. *)
Definition sfizz_cmd (sfz_path : string) : list string :=
  [SFIZZ_BIN; "--client_name"; SFIZZ_CLIENT_NAME; "--jack_autoconnect"; sfz_path].

(** A tick with the same clock and the same answers but nothing polled. *)
Definition without_message (inp : tick_input) : tick_input :=
  {| in_msg := None; clock_recv := clock_recv inp; clock_now := clock_now inp;
     disk := disk inp; pipe_ok := pipe_ok inp |}.

(** A world for the examples: the SL88 is the second port of three. *)
Definition sl88_world (f : file) : startup_world :=
  {| in_ports := ["Midi Through:Midi Through Port-0 14:0";
                  "SL STUDIO:SL STUDIO SL CTRL 24:1";
                  "SL STUDIO:SL STUDIO SL KEYB 24:0"];
     out_ports := ["Midi Through:Midi Through Port-0 14:0";
                   "SL STUDIO:SL STUDIO SL KEYB 24:0";
                   "SL STUDIO:SL STUDIO SL CTRL 24:1"];
     open_in_ok := true; open_out_ok := true;
     last_prog_file := f;
     send_ok := true; spawn_ok := true;
     jack_spawns := fun _ _ => true;
     clock_start := 0 |}.

(** ** The two halves of an iteration *)

Lemma engine_writes_app (tr1 tr2 : list effect) :
  engine_writes (tr1 ++ tr2) = engine_writes tr1 ++ engine_writes tr2.
Proof. apply omap_app. Qed.

Lemma file_writes_app (tr1 tr2 : list effect) :
  file_writes (tr1 ++ tr2) = file_writes tr1 ++ file_writes tr2.
Proof. apply omap_app. Qed.

Lemma file_writes_save (program : Z) (r : io_result) :
  file_writes (save_last_program program r) = [(str program, r)].
Proof. by destruct r. Qed.

Lemma engine_writes_save (program : Z) (r : io_result) :
  engine_writes (save_last_program program r) = [].
Proof. by destruct r. Qed.

Lemma commit_due_dec (cur : Z) (st : RouterState) (now : Q) :
  {commit_due cur st now} + {¬ commit_due cur st now}.
Proof.
  unfold commit_due.
  destruct (decide (is_Some (SFZ_MAP !! last_requested_program st))) as [Hm|Hm];
    [|right; tauto].
  destruct (decide (last_requested_program st = cur)) as [He|He];
    [right; tauto|].
  destruct (Qlt_le_dec (now - last_request_time st) DEBOUNCE_SECONDS) as [Hl|Hl].
  - right. intros (_ & _ & H). apply (Qlt_not_le _ _ Hl H).
  - left. auto.
Qed.

Lemma debounce_check_due inp st :
  commit_due (current_program st) st (clock_now inp) →
  ∃ sfz_path,
    SFZ_MAP !! last_requested_program st = Some sfz_path
    ∧ debounce_check inp st =
        Return (if pipe_ok inp then loaded st else st,
                load_effects inp (last_requested_program st) sfz_path).
Proof.
  intros ([sfz_path Hp] & Hne & Ht). exists sfz_path. split; [done|].
  unfold debounce_check, lookup_item, load_effects, loaded.
  rewrite bool_decide_eq_true_2 by (rewrite Hp; eauto).
  rewrite bool_decide_eq_true_2 by done.
  apply Qle_bool_iff in Ht. rewrite Ht, Hp. simpl.
  by destruct (pipe_ok inp).
Qed.

Lemma debounce_check_not_due inp st :
  ¬ commit_due (current_program st) st (clock_now inp) →
  debounce_check inp st = Return (st, []).
Proof.
  intros Hn. unfold debounce_check.
  destruct (bool_decide _ && bool_decide _ && Qle_bool _ _) eqn:Hc; [|done].
  destruct Hn. apply andb_true_iff in Hc as [Hc Ht].
  apply andb_true_iff in Hc as [Hm Hne].
  apply bool_decide_eq_true in Hm. apply bool_decide_eq_true in Hne.
  apply Qle_bool_iff in Ht. by repeat split.
Qed.

Lemma on_message_none inp st :
  in_msg inp = None → on_message inp st = Return (st, []).
Proof. intros H. unfold on_message. by rewrite H. Qed.

Lemma on_message_other inp st data delta :
  in_msg inp = Some (data, delta) → data ≠ [] → is_program_change data = false →
  on_message inp st = Return (st, []).
Proof.
  intros H Hd Hpc. unfold on_message. rewrite H.
  destruct data as [|status rest]; [done|]. simpl in *. by rewrite Hpc.
Qed.

Lemma on_message_request inp st status program rest delta :
  in_msg inp = Some (status :: program :: rest, delta) →
  is_program_change (status :: program :: rest) = true →
  on_message inp st =
    Return ({| current_program := current_program st;
               last_requested_program := program;
               last_request_time := clock_recv inp |},
            [Log (LogProgramChange (Z.land status 0x0F + 1) program)]).
Proof.
  intros H Hpc. unfold on_message. rewrite H. simpl in *. by rewrite Hpc.
Qed.

Lemma on_message_quiet inp st :
  quiet inp → on_message inp st = Return (st, []).
Proof.
  unfold quiet. destruct (in_msg inp) as [[data delta]|] eqn:H.
  - intros [Hd Hpc]. by eapply on_message_other.
  - intros _. by apply on_message_none.
Qed.

(** What the first half can have done when it returns. *)
Lemma on_message_inv inp st st1 tr1 :
  on_message inp st = Return (st1, tr1) →
  current_program st1 = current_program st
  ∧ engine_writes tr1 = [] ∧ file_writes tr1 = []
  ∧ match request inp with
    | Some program =>
        last_requested_program st1 = program
        ∧ last_request_time st1 = clock_recv inp
    | None =>
        st1 = st
    end.
Proof.
  unfold on_message, request.
  destruct (in_msg inp) as [[data delta]|]; [|by intros [= <- <-]].
  destruct data as [|status rest]; [done|]. simpl.
  destruct (bool_decide _ && bool_decide _).
  - destruct rest as [|program rest]; [done|]. simpl. by intros [= <- <-].
  - by intros [= <- <-].
Qed.

Lemma tick_inv inp st st' tr :
  tick inp st = Return (st', tr) →
  ∃ st1 tr1 tr2,
    on_message inp st = Return (st1, tr1)
    ∧ debounce_check inp st1 = Return (st', tr2)
    ∧ tr = tr1 ++ tr2.
Proof.
  unfold tick. destruct (on_message inp st) as [[st1 tr1]|]; [|done]. simpl.
  destruct (debounce_check inp st1) as [[st2 tr2]|] eqn:H2; [|done]. simpl.
  intros [= <- <-]. by exists st1, tr1, tr2.
Qed.

Lemma tick_intro inp st st1 tr1 st2 tr2 :
  on_message inp st = Return (st1, tr1) →
  debounce_check inp st1 = Return (st2, tr2) →
  tick inp st = Return (st2, tr1 ++ tr2).
Proof. intros H1 H2. unfold tick. rewrite H1. simpl. by rewrite H2. Qed.

Lemma engine_writes_load inp program sfz_path :
  engine_writes (load_effects inp program sfz_path)
  = [(load_command sfz_path, pipe_ok inp)].
Proof.
  unfold load_effects. change (Log ?m :: ?l) with ([Log m] ++ l).
  rewrite !engine_writes_app, engine_writes_save. by destruct (pipe_ok inp).
Qed.

Lemma file_writes_load inp program sfz_path :
  file_writes (load_effects inp program sfz_path) = [(str program, disk inp)].
Proof.
  unfold load_effects. change (Log ?m :: ?l) with ([Log m] ++ l).
  rewrite !file_writes_app, file_writes_save. by destruct (pipe_ok inp).
Qed.

(** An iteration that returns has done one of two things: a load attempt
    for the request it holds, or nothing beyond noting a request. *)
Lemma tick_cases inp st st' tr :
  tick inp st = Return (st', tr) →
  match request inp with
  | Some program =>
      last_requested_program st' = program
      ∧ last_request_time st' = clock_recv inp
  | None =>
      last_requested_program st' = last_requested_program st
      ∧ last_request_time st' = last_request_time st
  end
  ∧ ((commit_due (current_program st) st' (clock_now inp)
      ∧ ∃ sfz_path,
          SFZ_MAP !! last_requested_program st' = Some sfz_path
          ∧ file_writes tr = [(str (last_requested_program st'), disk inp)]
          ∧ engine_writes tr = [(load_command sfz_path, pipe_ok inp)]
          ∧ current_program st' =
              if pipe_ok inp then last_requested_program st'
              else current_program st)
     ∨ (¬ commit_due (current_program st) st' (clock_now inp)
        ∧ file_writes tr = [] ∧ engine_writes tr = []
        ∧ current_program st' = current_program st)).
Proof.
  intros (st1 & tr1 & tr2 & H1 & H2 & ->)%tick_inv.
  apply on_message_inv in H1 as (Hcur & Hew & Hfw & Hreq).
  rewrite engine_writes_app, file_writes_app, Hew, Hfw. simpl.
  assert (Hpend : last_requested_program st' = last_requested_program st1
                  ∧ last_request_time st' = last_request_time st1
                  ∧ (commit_due (current_program st) st' (clock_now inp)
                     ↔ commit_due (current_program st1) st1 (clock_now inp))).
  { destruct (commit_due_dec (current_program st1) st1 (clock_now inp)) as [Hd|Hd].
    - destruct (debounce_check_due inp st1 Hd) as (p & _ & E).
      rewrite E in H2. injection H2 as <- _.
      unfold commit_due. rewrite Hcur. by destruct (pipe_ok inp).
    - rewrite (debounce_check_not_due inp st1 Hd) in H2. injection H2 as <- _.
      unfold commit_due. by rewrite Hcur. }
  destruct Hpend as (Hp & Ht & Hiff). split.
  { rewrite Hp, Ht. destruct (request inp); [done|]. by subst st1. }
  destruct (commit_due_dec (current_program st1) st1 (clock_now inp)) as [Hd|Hd].
  - left. split; [by apply Hiff|].
    destruct (debounce_check_due inp st1 Hd) as (sfz_path & Hm & E).
    rewrite E in H2. injection H2 as <- <-.
    exists sfz_path. rewrite engine_writes_load, file_writes_load.
    rewrite <- Hcur. by destruct (pipe_ok inp).
  - right. split; [by rewrite Hiff|].
    rewrite (debounce_check_not_due inp st1 Hd) in H2. by injection H2 as <- <-.
Qed.

(** The second half never raises: the lookup is guarded by the membership
    test of the condition. *)
Lemma debounce_check_returns inp st :
  ∃ st' tr, debounce_check inp st = Return (st', tr).
Proof.
  destruct (commit_due_dec (current_program st) st (clock_now inp)) as [Hd|Hd].
  - destruct (debounce_check_due inp st Hd) as (p & _ & E). rewrite E. eauto.
  - rewrite (debounce_check_not_due inp st Hd). eauto.
Qed.

(** ** The iteration *)

(** C1. In every iteration that completes, the request is first brought up
    to date: a Program Change of the common channel polled in this iteration
    replaces the requested program and sets the request time to the clock
    reading taken on receipt; otherwise both stay as they were held. The
    load (persist the requested program, then write the load command for its
    SFZ path to the engine) then happens exactly when the debounce condition
    holds for that request: the requested program is a key of [SFZ_MAP], it
    differs from the [current_program] the iteration started with, and at
    least [DEBOUNCE_SECONDS] have passed since the request time. Only a send
    that succeeds moves [current_program], to the requested program.
    Otherwise nothing is written to the engine or to the file and
    [current_program] stays. *)
Theorem commit_exactly_when_due inp st st' tr :
  tick inp st = Return (st', tr) →
  match request inp with
  | Some program =>
      last_requested_program st' = program
      ∧ last_request_time st' = clock_recv inp
  | None =>
      last_requested_program st' = last_requested_program st
      ∧ last_request_time st' = last_request_time st
  end
  ∧ (commit_due (current_program st) st' (clock_now inp) →
     ∃ sfz_path,
       SFZ_MAP !! last_requested_program st' = Some sfz_path
       ∧ file_writes tr = [(str (last_requested_program st'), disk inp)]
       ∧ engine_writes tr = [(load_command sfz_path, pipe_ok inp)]
       ∧ current_program st' =
           if pipe_ok inp then last_requested_program st'
           else current_program st)
  ∧ (¬ commit_due (current_program st) st' (clock_now inp) →
     engine_writes tr = [] ∧ file_writes tr = []
     ∧ current_program st' = current_program st).
Proof.
  intros [Hreq [(Hd & p & Hm & Hf & He & Hc)|(Hn & Hf & He & Hc)]]%tick_cases.
  - split; [done|]. split; [|done]. intros _. by exists p.
  - split; [done|]. split; [done|]. by intros _.
Qed.

(** C3. A Program Change of the common channel sets the requested program
    to the program of the message and the request time to the clock reading
    taken on receipt, whatever the state was: also when the same program was
    already requested. *)
Theorem program_change_rearms inp st status program rest delta :
  in_msg inp = Some (status :: program :: rest, delta) →
  Z.land status 0xF0 = 0xC0 →
  Z.land status 0x0F = common_midi_channel →
  ∃ st' tr,
    tick inp st = Return (st', tr)
    ∧ last_requested_program st' = program
    ∧ last_request_time st' = clock_recv inp.
Proof.
  intros Hmsg Hty Hch.
  assert (Hpc : is_program_change (status :: program :: rest) = true).
  { simpl. by rewrite !bool_decide_eq_true_2. }
  pose proof (on_message_request inp st _ _ _ _ Hmsg Hpc) as H1.
  destruct (debounce_check_returns inp
    {| current_program := current_program st;
       last_requested_program := program;
       last_request_time := clock_recv inp |}) as (st' & tr2 & H2).
  pose proof (tick_intro _ _ _ _ _ _ H1 H2) as Ht.
  eexists _, _. split; [exact Ht|].
  apply tick_cases in Ht as [Hreq _].
  unfold request in Hreq. rewrite Hmsg, Hpc in Hreq. exact Hreq.
Qed.

Lemma commit_exactly_when_due_witness :
  let st := {| current_program := 10; last_requested_program := 11;
               last_request_time := 0.375 |} in
  let st' := {| current_program := 11; last_requested_program := 11;
                last_request_time := 0.375 |} in
  let tr := [Log (LogDebouncedLoad 11 clavinet); WriteFile "11" IoOk;
             EngineWrite (load_command clavinet) true] in
  (last_requested_program st' = last_requested_program st
   ∧ last_request_time st' = last_request_time st)
  ∧ ∃ sfz_path,
      SFZ_MAP !! 11 = Some sfz_path
      ∧ file_writes tr = [(str 11, IoOk)]
      ∧ engine_writes tr = [(load_command sfz_path, true)]
      ∧ current_program st' = 11.
Proof.
  intros st st' tr.
  destruct (commit_exactly_when_due (idle_at 1) st st' tr
              ltac:(vm_compute; reflexivity)) as (Hreq & Hdue & _).
  split; [exact Hreq|]. apply Hdue.
  split; [by eexists|]. split; [done|]. by vm_compute.
Defined.

Lemma program_change_rearms_witness :
  ∃ st' tr,
    tick (change_at 0.25 11)
      {| current_program := 10; last_requested_program := 11;
         last_request_time := 0.125 |} = Return (st', tr)
    ∧ last_requested_program st' = 11
    ∧ last_request_time st' = 0.25%Q.
Proof.
  apply (program_change_rearms (change_at 0.25 11)
    {| current_program := 10; last_requested_program := 11;
       last_request_time := 0.125 |} 0xC0 11 [] 0%Q); reflexivity.
Defined.

(** ** Messages the loop cannot decode *)

(** C9, as stated, fails: the loop indexes the bytes of the message without
    looking at its length. A message with no byte raises at [data[0]], a
    Program Change status of the common channel with no program byte raises
    at [data[1]]; nothing in the loop catches the [IndexError], so the run
    ends there. *)
Lemma short_message_raises :
  let st := initial_state 10 0 in
  let no_byte :=
    {| in_msg := Some ([], 0%Q); clock_recv := 1; clock_now := 1;
       disk := IoOk; pipe_ok := true |} in
  let status_only :=
    {| in_msg := Some ([0xC0], 0%Q); clock_recv := 1; clock_now := 1;
       disk := IoOk; pipe_ok := true |} in
  on_message no_byte st = Raise IndexError
  ∧ on_message status_only st = Raise IndexError
  ∧ run [status_only; idle_at 2] st = ([], Raise IndexError).
Proof. by vm_compute. Qed.

(** C9, amended. On every message that has its status byte and, when that
    is a Program Change of the common channel, its program byte, and when
    nothing was polled, the iteration completes. *)
Theorem tick_returns_on_complete inp st :
  complete inp → ∃ st' tr, tick inp st = Return (st', tr).
Proof.
  intros Hc.
  assert (H1 : ∃ st1 tr1, on_message inp st = Return (st1, tr1)).
  { unfold complete in Hc. destruct (in_msg inp) as [[data delta]|] eqn:Hmsg.
    - destruct Hc as [Hne Hlen].
      destruct (is_program_change data) eqn:Hpc.
      + destruct data as [|status [|program rest]]; [done| |].
        * specialize (Hlen eq_refl). simpl in Hlen. lia.
        * erewrite on_message_request by done. eauto.
      + erewrite on_message_other by done. eauto.
    - rewrite on_message_none by done. eauto. }
  destruct H1 as (st1 & tr1 & H1).
  destruct (debounce_check_returns inp st1) as (st2 & tr2 & H2).
  eexists _, _. by eapply tick_intro.
Qed.

Lemma tick_returns_on_complete_witness :
  ∃ st' tr, tick (change_at 0.125 11) (initial_state 10 0) = Return (st', tr).
Proof.
  apply (tick_returns_on_complete (change_at 0.125 11) (initial_state 10 0)).
  split; [done|]. intros _. simpl. lia.
Defined.

(** On any other message the iteration raises. *)
Lemma tick_raises_on_incomplete inp st :
  ¬ complete inp → tick inp st = Raise IndexError.
Proof.
  unfold complete, complete_message, tick, on_message. intros Hn.
  destruct (in_msg inp) as [[data delta]|]; [|by destruct Hn].
  destruct data as [|status rest]; [done|]. simpl in *.
  destruct (bool_decide _ && bool_decide _).
  - destruct rest as [|program rest]; [done|]. destruct Hn.
    split; [done|]. intros _. simpl. lia.
  - by destruct Hn.
Qed.

(** ** The persisted program *)

(** C6. [load_last_program] returns, never raises, and what it returns is
    the default program 10 when the file is missing, when opening, reading
    or parsing it fails, and when the number read is not a key of
    [SFZ_MAP]; otherwise it is the number read. *)
Theorem load_last_program_default (int_of_text : string → option Z) (f : file) :
  ∃ program log,
    load_last_program int_of_text f = Return (program, log)
    ∧ (f = Missing → program = 10)
    ∧ (f = Unreadable → program = 10)
    ∧ (∀ text, f = Contents text → int_of_text text = None → program = 10)
    ∧ (∀ text val, f = Contents text → int_of_text text = Some val →
         SFZ_MAP !! val = None → program = 10)
    ∧ (∀ text val, f = Contents text → int_of_text text = Some val →
         is_Some (SFZ_MAP !! val) → program = val).
Proof.
  unfold load_last_program, read_last_program.
  destruct f as [| |text]; simpl; [by eexists _, _ ..|].
  destruct (int_of_text text) as [val|] eqn:Hv; simpl;
    [destruct (bool_decide (is_Some (SFZ_MAP !! val))) eqn:Hm; simpl|];
    (eexists _, _; split; [done|]);
    repeat split; try done; intros; simplify_eq; try done.
  - apply bool_decide_eq_true in Hm as [sfz_path Hm]. congruence.
  - by apply bool_decide_eq_false in Hm.
Qed.

Example load_last_program_examples :
  load_last_program decimal_int Missing = Return (10, [])
  ∧ load_last_program decimal_int (Contents "12") = Return (12, [])
  ∧ load_last_program decimal_int (Contents "99") = Return (10, [])
  ∧ load_last_program decimal_int (Contents "P012")
    = Return (10, [Log (LogReadFailed ValueError)])
  ∧ load_last_program decimal_int Unreadable
    = Return (10, [Log (LogReadFailed OSError)]).
Proof. by vm_compute. Qed.

Lemma writes_app (tr1 tr2 : list effect) :
  writes (tr1 ++ tr2) = writes tr1 ++ writes tr2.
Proof. apply List.filter_app. Qed.

Lemma on_message_writes inp st st1 tr1 :
  on_message inp st = Return (st1, tr1) → writes tr1 = [].
Proof.
  unfold on_message.
  destruct (in_msg inp) as [[data delta]|]; [|by intros [= <- <-]].
  destruct data as [|status rest]; [done|]. simpl.
  destruct (bool_decide _ && bool_decide _).
  - destruct rest as [|program rest]; [done|]. simpl. by intros [= <- <-].
  - by intros [= <- <-].
Qed.

Lemma writes_load inp program sfz_path :
  writes (load_effects inp program sfz_path)
  = [WriteFile (str program) (disk inp);
     EngineWrite (load_command sfz_path) (pipe_ok inp)].
Proof. unfold load_effects. by destruct (disk inp), (pipe_ok inp). Qed.

(** The writes of an iteration, in the order they are made. *)
Lemma tick_writes inp st st' tr :
  tick inp st = Return (st', tr) →
  writes tr = []
  ∨ ∃ sfz_path,
      SFZ_MAP !! last_requested_program st' = Some sfz_path
      ∧ writes tr = [WriteFile (str (last_requested_program st')) (disk inp);
                     EngineWrite (load_command sfz_path) (pipe_ok inp)].
Proof.
  intros (st1 & tr1 & tr2 & H1 & H2 & ->)%tick_inv.
  apply on_message_writes in H1. rewrite writes_app, H1. simpl.
  destruct (commit_due_dec (current_program st1) st1 (clock_now inp)) as [Hd|Hd].
  - right. destruct (debounce_check_due inp st1 Hd) as (sfz_path & Hm & E).
    rewrite E in H2. injection H2 as <- <-. exists sfz_path.
    rewrite writes_load. by destruct (pipe_ok inp).
  - left. rewrite (debounce_check_not_due inp st1 Hd) in H2.
    by injection H2 as <- <-.
Qed.

Lemma file_writes_writes (tr : list effect) :
  file_writes (writes tr) = file_writes tr.
Proof.
  induction tr as [|e tr IH]; [done|]. destruct e; simpl; by rewrite ?IH.
Qed.

(** C7, as stated, fails: the file is written before the command is sent,
    and stays written when the send fails. Here 11 is requested, its load is
    due, and the pipe is broken: the file holds 11 while the engine has
    taken no command and [current_program] is still 10. *)
Lemma persisted_without_load :
  let '(hist, res) :=
    run [change_at 0.125 11; broken_pipe (idle_at 1)] (initial_state 10 0) in
  file_after Missing (effects_of hist) = Contents (str 11)
  ∧ (∀ cmd, (cmd, true) ∉ engine_writes (effects_of hist))
  ∧ ∃ st, res = Return st ∧ current_program st = 10.
Proof.
  vm_compute. split; [done|]. split; [|by eexists].
  intros cmd H. apply list_elem_of_singleton in H. discriminate H.
Qed.

(** C7, amended. Whenever an iteration writes the file, what it writes is
    the pending program (the program of the Program Change polled in this
    iteration, else the one requested before), which is a key of [SFZ_MAP]
    and stays the request; and the iteration goes on to send the load
    command for that program's SFZ path: the file is written first, whether
    or not the send then succeeds. *)
Theorem persist_then_send inp st st' tr text r :
  tick inp st = Return (st', tr) →
  (text, r) ∈ file_writes tr →
  let pending := default (last_requested_program st) (request inp) in
  ∃ sfz_path,
    SFZ_MAP !! pending = Some sfz_path
    ∧ text = str pending
    ∧ last_requested_program st' = pending
    ∧ writes tr = [WriteFile text r;
                   EngineWrite (load_command sfz_path) (pipe_ok inp)].
Proof.
  intros Ht Hin pending. rewrite <- file_writes_writes in Hin.
  assert (Hp : last_requested_program st' = pending).
  { apply tick_cases in Ht as [Hreq _]. unfold pending.
    destruct (request inp); by destruct Hreq as [-> _]. }
  rewrite <- Hp.
  destruct (tick_writes _ _ _ _ Ht) as [Hw|(sfz_path & Hm & Hw)];
    rewrite Hw in Hin; simpl in Hin.
  - by apply elem_of_nil in Hin.
  - apply list_elem_of_singleton in Hin. injection Hin as -> ->.
    by exists sfz_path.
Qed.

Lemma persist_then_send_witness :
  ∃ sfz_path,
    SFZ_MAP !! 11 = Some sfz_path
    ∧ "11" = str 11
    ∧ last_requested_program
        {| current_program := 10; last_requested_program := 11;
           last_request_time := 0.125 |} = 11
    ∧ writes [Log (LogDebouncedLoad 11 clavinet); WriteFile "11" IoOk;
              EngineWrite (load_command clavinet) false; Log LogSendError]
      = [WriteFile "11" IoOk; EngineWrite (load_command sfz_path) false].
Proof.
  apply (persist_then_send (broken_pipe (idle_at 1))
    {| current_program := 10; last_requested_program := 11;
       last_request_time := 0.125 |}
    {| current_program := 10; last_requested_program := 11;
       last_request_time := 0.125 |}
    [Log (LogDebouncedLoad 11 clavinet); WriteFile "11" IoOk;
     EngineWrite (load_command clavinet) false; Log LogSendError]
    "11" IoOk ltac:(vm_compute; reflexivity)).
  vm_compute. apply list_elem_of_here.
Defined.

(** ** Runs *)

Lemma run_cons inp rest st st' tr :
  tick inp st = Return (st', tr) →
  run (inp :: rest) st = ((st', tr) :: (run rest st').1, (run rest st').2).
Proof. intros H. simpl. rewrite H. by destruct (run rest st'). Qed.

Lemma run_cons_raise inp rest st e :
  tick inp st = Raise e → run (inp :: rest) st = ([], Raise e).
Proof. intros H. simpl. by rewrite H. Qed.

(** Invariants of the loop: [P] holds of the state before every iteration and
    of the state the run ends in, [R] of every completed iteration. *)
Lemma run_invariant (P : RouterState → Prop) (R : RouterState * list effect → Prop) :
  (∀ inp st st' tr, P st → tick inp st = Return (st', tr) → P st' ∧ R (st', tr)) →
  ∀ inps st, P st →
    Forall R (run inps st).1
    ∧ match (run inps st).2 with Return st_end => P st_end | Raise _ => True end.
Proof.
  intros Hstep. induction inps as [|inp rest IH]; intros st HP; [by split|].
  destruct (tick inp st) as [[st' tr]|e] eqn:Ht.
  - rewrite (run_cons _ _ _ _ _ Ht). simpl.
    destruct (Hstep _ _ _ _ HP Ht) as [HP' HR].
    destruct (IH st' HP') as [IH1 IH2]. split; [by constructor|done].
  - rewrite (run_cons_raise _ _ _ _ Ht). by split.
Qed.

(** C10. [current_program] is a key of [SFZ_MAP] throughout: what
    [load_last_program] returns is a key, the loop starts with it, and every
    state the loop reaches from there, whatever it is fed, has a key as its
    [current_program]. *)
Theorem current_program_in_map
    (int_of_text : string → option Z) (f : file) (t0 : Q) (inps : list tick_input) :
  ∃ default_prog log,
    load_last_program int_of_text f = Return (default_prog, log)
    ∧ is_Some (SFZ_MAP !! default_prog)
    ∧ is_Some (SFZ_MAP !! current_program (initial_state default_prog t0))
    ∧ Forall (fun it => is_Some (SFZ_MAP !! current_program it.1))
        (run inps (initial_state default_prog t0)).1
    ∧ match (run inps (initial_state default_prog t0)).2 with
      | Return st_end => is_Some (SFZ_MAP !! current_program st_end)
      | Raise _ => True
      end.
Proof.
  assert (Hload : ∃ default_prog log,
            load_last_program int_of_text f = Return (default_prog, log)
            ∧ is_Some (SFZ_MAP !! default_prog)).
  { unfold load_last_program, read_last_program.
    destruct f as [| |text]; simpl; [by eexists _, _ ..|].
    destruct (int_of_text text) as [val|]; simpl; [|by eexists _, _].
    destruct (bool_decide (is_Some (SFZ_MAP !! val))) eqn:Hm; simpl;
      [|by eexists _, _].
    apply bool_decide_eq_true in Hm. by eexists _, _. }
  destruct Hload as (default_prog & log & Hl & Hk).
  exists default_prog, log. do 3 (split; [done|]).
  apply (run_invariant
    (fun st => is_Some (SFZ_MAP !! current_program st))
    (fun it => is_Some (SFZ_MAP !! current_program it.1))); [|done].
  intros inp st st' tr HP Ht.
  assert (is_Some (SFZ_MAP !! current_program st')); [|done].
  apply tick_cases in Ht as [_ [(_ & p & Hm & _ & _ & Hc)|(_ & _ & _ & Hc)]];
    rewrite Hc; [|done].
  destruct (pipe_ok inp); [by rewrite Hm|done].
Qed.

Example unmapped_stays_requested :
  run [change_at 0.125 99; idle_at 0.75; idle_at 3600] (initial_state 10 0)
  = ([({| current_program := 10; last_requested_program := 99;
          last_request_time := 0.125 |}, [Log (LogProgramChange 1 99)]);
      ({| current_program := 10; last_requested_program := 99;
          last_request_time := 0.125 |}, []);
      ({| current_program := 10; last_requested_program := 99;
          last_request_time := 0.125 |}, [])],
     Return {| current_program := 10; last_requested_program := 99;
               last_request_time := 0.125 |}).
Proof. by vm_compute. Qed.

(** ** Retry and idempotence *)

(** An iteration without a request, when a load is due. *)
Lemma quiet_tick_due q st :
  quiet q →
  commit_due (current_program st) st (clock_now q) →
  ∃ sfz_path,
    SFZ_MAP !! last_requested_program st = Some sfz_path
    ∧ tick q st =
        Return (if pipe_ok q then loaded st else st,
                load_effects q (last_requested_program st) sfz_path).
Proof.
  intros Hq Hd. destruct (debounce_check_due q st Hd) as (sfz_path & Hm & E).
  exists sfz_path. split; [done|].
  apply (tick_intro _ _ _ _ _ _ (on_message_quiet q st Hq) E).
Qed.

(** An iteration without a request, when the engine already has the
    requested program. *)
Lemma quiet_tick_settled q st :
  quiet q →
  last_requested_program st = current_program st →
  tick q st = Return (st, []).
Proof.
  intros Hq He.
  apply (tick_intro _ _ _ _ _ _ (on_message_quiet q st Hq)).
  apply debounce_check_not_due. intros (_ & Hne & _). by apply Hne.
Qed.

Lemma commit_due_later cur st now now' :
  (now <= now')%Q → commit_due cur st now → commit_due cur st now'.
Proof. intros Hle (Hm & Hne & Ht). repeat split; [done..|lra]. Qed.

(** C5. When the send of a load attempt fails, [current_program] is left as
    it was. From then on, as long as no new request arrives and the send
    keeps failing, every iteration attempts the same command again and
    leaves the state as it is; the first iteration whose send succeeds sets
    [current_program] to the requested program, and after it no iteration
    without a request writes to the engine. *)
Theorem failed_send_retried inp st st1 tr1 cmd :
  tick inp st = Return (st1, tr1) →
  engine_writes tr1 = [(cmd, false)] →
  current_program st1 = current_program st
  ∧ (∀ fails,
       Forall quiet fails →
       Forall (fun q => (clock_now inp <= clock_now q)%Q) fails →
       Forall (fun q => pipe_ok q = false) fails →
       (run fails st1).2 = Return st1
       ∧ length (run fails st1).1 = length fails
       ∧ Forall (fun it => it.1 = st1 ∧ engine_writes it.2 = [(cmd, false)])
           (run fails st1).1)
  ∧ (∀ q after,
       quiet q → (clock_now inp <= clock_now q)%Q → pipe_ok q = true →
       Forall quiet after →
       ∃ tr2,
         tick q st1 = Return (loaded st1, tr2)
         ∧ engine_writes tr2 = [(cmd, true)]
         ∧ current_program (loaded st1) = last_requested_program st1
         ∧ run after (loaded st1)
           = (map (fun _ => (loaded st1, [])) after, Return (loaded st1))).
Proof.
  intros Ht Hew.
  apply tick_cases in Ht as [_ [(Hd & sfz_path & Hm & _ & He & Hc)|(_ & _ & He & _)]];
    [|by rewrite He in Hew].
  rewrite He in Hew. injection Hew as <- Hp. rewrite Hp in Hc.
  rewrite <- Hc in Hd. split; [done|]. split.
  - intros fails Hq Hclk Hfail.
    induction fails as [|q fails IH]; [done|].
    apply Forall_cons in Hq as [Hq Hqs]. apply Forall_cons in Hclk as [Hclk Hclks].
    apply Forall_cons in Hfail as [Hfail Hfails].
    destruct (IH Hqs Hclks Hfails) as (IH1 & IH2 & IH3).
    destruct (quiet_tick_due q st1 Hq (commit_due_later _ _ _ _ Hclk Hd))
      as (sfz_path' & Hm' & Hq').
    rewrite Hm in Hm'. injection Hm' as <-. rewrite Hfail in Hq'.
    rewrite (run_cons _ _ _ _ _ Hq'). cbn [fst snd length].
    split; [done|]. split; [by rewrite IH2|].
    constructor; [|done]. cbn [fst snd].
    by rewrite engine_writes_load, Hfail.
  - intros q after Hq Hclk Hok Hafter.
    destruct (quiet_tick_due q st1 Hq (commit_due_later _ _ _ _ Hclk Hd))
      as (sfz_path' & Hm' & Hq').
    rewrite Hm in Hm'. injection Hm' as <-. rewrite Hok in Hq'.
    eexists. split; [exact Hq'|]. rewrite engine_writes_load, Hok.
    do 2 (split; [done|]).
    induction after as [|a after IH]; [done|].
    apply Forall_cons in Hafter as [Ha Hafter].
    rewrite (run_cons _ _ _ _ _ (quiet_tick_settled a (loaded st1) Ha eq_refl)).
    by rewrite (IH Hafter).
Qed.

Lemma failed_send_retried_witness :
  let st := {| current_program := 10; last_requested_program := 11;
               last_request_time := 0.125 |} in
  current_program st = 10
  ∧ (run [broken_pipe (idle_at 1.25); broken_pipe (idle_at 1.5)] st).2 = Return st
  ∧ ∃ tr2,
      tick (idle_at 2) st = Return (loaded st, tr2)
      ∧ engine_writes tr2 = [(load_command clavinet, true)].
Proof.
  intros st.
  destruct (failed_send_retried (broken_pipe (idle_at 1)) st st
    [Log (LogDebouncedLoad 11 clavinet); WriteFile "11" IoOk;
     EngineWrite (load_command clavinet) false; Log LogSendError]
    (load_command clavinet)
    ltac:(vm_compute; reflexivity) ltac:(vm_compute; reflexivity))
    as (H1 & H2 & H3).
  split; [exact H1|]. split.
  - apply (H2 [broken_pipe (idle_at 1.25); broken_pipe (idle_at 1.5)]);
      repeat constructor; by vm_compute.
  - destruct (H3 (idle_at 2) []) as (tr2 & Ht & He & _);
      [done|by vm_compute|done|constructor|].
    by exists tr2.
Defined.

(** The scenario of the retry: the load of 11 is due at 1 and the pipe is
    broken for three iterations; the command is sent four times, the last
    one succeeds, and nothing is sent after it. *)
Example retry_until_success :
  let st := {| current_program := 10; last_requested_program := 11;
               last_request_time := 0.125 |} in
  let inps :=
    [broken_pipe (idle_at 1); broken_pipe (idle_at 1.25);
     broken_pipe (idle_at 1.5); idle_at 1.75; idle_at 2; idle_at 5] in
  map (fun it => (current_program it.1, engine_writes it.2)) (run inps st).1
  = [(10, [(load_command clavinet, false)]);
     (10, [(load_command clavinet, false)]);
     (10, [(load_command clavinet, false)]);
     (11, [(load_command clavinet, true)]);
     (11, []); (11, [])].
Proof. by vm_compute. Qed.

(** Once the engine has the requested program, nothing is written until
    another program is requested. *)
Lemma settled_run (p : Z) (inps : list tick_input) :
  ∀ st,
    current_program st = p → last_requested_program st = p →
    Forall (fun q => ∀ p', request q = Some p' → p' = p) inps →
    Forall (fun it =>
        engine_writes it.2 = [] ∧ file_writes it.2 = []
        ∧ current_program it.1 = p)
      (run inps st).1.
Proof.
  induction inps as [|q inps IH]; intros st Hcur Hreq Hrep; [constructor|].
  apply Forall_cons in Hrep as [Hq Hrep].
  destruct (tick q st) as [[st' tr]|e] eqn:Ht;
    [|rewrite (run_cons_raise _ _ _ _ Ht); constructor].
  rewrite (run_cons _ _ _ _ _ Ht). cbn [fst].
  apply tick_cases in Ht as [Hpend Hcase].
  assert (Hreq' : last_requested_program st' = p).
  { destruct (request q) as [p'|]; [|by rewrite (proj1 Hpend)].
    rewrite (proj1 Hpend). by apply Hq. }
  destruct Hcase as [((_ & Hne & _) & _)|(_ & Hf & He & Hc)]; [congruence|].
  constructor; [cbn [fst snd]; by rewrite Hc|].
  apply IH; [by rewrite Hc|done..].
Qed.

(** C8. After a load of [p] has succeeded, as long as no request for another
    program arrives, no iteration writes to the engine again: iterations
    without a request and iterations that request [p] once more, however
    many and whatever the clock shows, leave [current_program] at [p] and
    send nothing. *)
Theorem commit_idempotent inp st st1 tr1 cmd (inps : list tick_input) :
  tick inp st = Return (st1, tr1) →
  engine_writes tr1 = [(cmd, true)] →
  Forall (fun q => ∀ p', request q = Some p' → p' = current_program st1) inps →
  Forall (fun it =>
      engine_writes it.2 = [] ∧ file_writes it.2 = []
      ∧ current_program it.1 = current_program st1)
    (run inps st1).1.
Proof.
  intros Ht Hew Hrep.
  apply tick_cases in Ht as [_ [(_ & sfz_path & _ & _ & He & Hc)|(_ & _ & He & _)]];
    [|by rewrite He in Hew].
  rewrite He in Hew. injection Hew as _ Hp. rewrite Hp in Hc.
  by apply settled_run.
Qed.

Lemma commit_idempotent_witness :
  Forall (fun it =>
      engine_writes it.2 = [] ∧ file_writes it.2 = []
      ∧ current_program it.1 = 11)
    (run [change_at 1.5 11; idle_at 2.5; change_at 2.75 11; idle_at 4]
       {| current_program := 11; last_requested_program := 11;
          last_request_time := 0.375 |}).1.
Proof.
  apply (commit_idempotent (idle_at 1)
    {| current_program := 10; last_requested_program := 11;
       last_request_time := 0.375 |}
    {| current_program := 11; last_requested_program := 11;
       last_request_time := 0.375 |}
    [Log (LogDebouncedLoad 11 clavinet); WriteFile "11" IoOk;
     EngineWrite (load_command clavinet) true]
    (load_command clavinet)
    [change_at 1.5 11; idle_at 2.5; change_at 2.75 11; idle_at 4]
    ltac:(vm_compute; reflexivity) ltac:(vm_compute; reflexivity)).
  repeat constructor; vm_compute; congruence.
Defined.

(** ** Coalescing *)

Lemma pc_events_cons inp rest :
  pc_events (inp :: rest) =
    match request inp with
    | Some p => (clock_recv inp, p) :: pc_events rest
    | None => pc_events rest
    end.
Proof. unfold pc_events. simpl. by destruct (request inp). Qed.

Lemma pc_events_app inps1 inps2 :
  pc_events (inps1 ++ inps2) = pc_events inps1 ++ pc_events inps2.
Proof. apply omap_app. Qed.

(** With a clock that never runs backwards, the requests of a run are
    recorded no earlier than the reading before it. *)
Lemma events_after inps :
  ∀ c, clock_monotone c inps → Forall (fun e => (c <= e.1)%Q) (pc_events inps).
Proof.
  induction inps as [|inp rest IH]; intros c Hc; [constructor|].
  destruct Hc as (H1 & H2 & Hrest). specialize (IH _ Hrest).
  assert (Hw : Forall (fun e => (c <= e.1)%Q) (pc_events rest)).
  { eapply Forall_impl; [exact IH|]. intros e He. simpl in He. lra. }
  rewrite pc_events_cons. destruct (request inp); [|done].
  constructor; [simpl; lra|done].
Qed.

(** The request held after an iteration starts the gaps that remain. *)
Lemma gaps_step inp rest st st' tr :
  tick inp st = Return (st', tr) →
  gaps_below DEBOUNCE_SECONDS (last_request_time st :: (pc_events (inp :: rest)).*1) →
  gaps_below DEBOUNCE_SECONDS (last_request_time st' :: (pc_events rest).*1).
Proof.
  intros [Hpend _]%tick_cases. rewrite pc_events_cons.
  destruct (request inp) as [p|]; destruct Hpend as [_ ->]; [|done].
  intros [_ H]. exact H.
Qed.

(** An iteration that writes to the engine is not followed by a request
    that is less than the debounce time after the one it held. *)
Lemma send_then_no_request inp st st' tr rest :
  tick inp st = Return (st', tr) →
  engine_writes tr ≠ [] →
  clock_monotone (clock_now inp) rest →
  gaps_below DEBOUNCE_SECONDS (last_request_time st' :: (pc_events rest).*1) →
  pc_events rest = [].
Proof.
  intros Ht Hew Hclk Hgaps.
  apply tick_cases in Ht as [_ [((_ & _ & Hd) & _)|(_ & _ & He & _)]]; [|done].
  apply events_after in Hclk.
  destruct (pc_events rest) as [|[t p] evs]; [done|exfalso].
  apply Forall_cons in Hclk as [Hle _]. simpl in Hle, Hgaps.
  destruct evs; simpl in Hgaps; lra.
Qed.

Lemma tick_request_time inp st st' tr c :
  tick inp st = Return (st', tr) →
  (last_request_time st <= c)%Q → (c <= clock_recv inp)%Q →
  (clock_recv inp <= clock_now inp)%Q →
  (last_request_time st' <= clock_now inp)%Q.
Proof.
  intros [Hpend _]%tick_cases H1 H2 H3.
  destruct (request inp); destruct Hpend as [_ ->]; lra.
Qed.

Lemma no_send_before_request inps :
  ∀ st c,
    (last_request_time st <= c)%Q →
    clock_monotone c inps →
    gaps_below DEBOUNCE_SECONDS (last_request_time st :: (pc_events inps).*1) →
    ∀ k it,
      (run inps st).1 !! k = Some it → engine_writes it.2 ≠ [] →
      pc_events (drop (S k) inps) = [].
Proof.
  induction inps as [|inp rest IH]; intros st c Hc Hclk Hgaps k it Hk Hew;
    [done|].
  destruct (tick inp st) as [[st' tr]|e] eqn:Ht;
    [|by rewrite (run_cons_raise _ _ _ _ Ht) in Hk].
  rewrite (run_cons _ _ _ _ _ Ht) in Hk. cbn [fst] in Hk.
  destruct Hclk as (H1 & H2 & Hrest).
  pose proof (gaps_step _ _ _ _ _ Ht Hgaps) as Hgaps'.
  destruct k as [|k]; simpl in Hk.
  - injection Hk as <-. simpl. rewrite drop_0.
    by apply (send_then_no_request _ _ _ _ _ Ht).
  - simpl.
    eapply (IH st' (clock_now inp));
      [|exact Hrest|exact Hgaps'|exact Hk|exact Hew].
    by apply (tick_request_time _ _ _ _ c Ht).
Qed.

(** The request an iteration holds is the last one polled so far. *)
Lemma run_requested inps :
  ∀ st k it,
    (run inps st).1 !! k = Some it →
    last_requested_program it.1
    = default (last_requested_program st)
        (snd <$> last (pc_events (take (S k) inps))).
Proof.
  induction inps as [|inp rest IH]; intros st k it Hk; [done|].
  destruct (tick inp st) as [[st' tr]|e] eqn:Ht;
    [|by rewrite (run_cons_raise _ _ _ _ Ht) in Hk].
  rewrite (run_cons _ _ _ _ _ Ht) in Hk. cbn [fst] in Hk.
  apply tick_cases in Ht as [Hpend _].
  rewrite firstn_cons, pc_events_cons.
  destruct k as [|k]; simpl in Hk.
  - injection Hk as <-. rewrite take_0. simpl.
    destruct (request inp); by destruct Hpend as [-> _].
  - rewrite (IH _ _ _ Hk).
    destruct (request inp) as [p|]; destruct Hpend as [-> _]; [|done].
    rewrite last_cons. by destruct (last (pc_events (take (S k) rest))).
Qed.

Lemma run_sends inps st :
  Forall (fun it =>
      engine_writes it.2 = []
      ∨ ∃ sfz_path ok,
          SFZ_MAP !! last_requested_program it.1 = Some sfz_path
          ∧ engine_writes it.2 = [(load_command sfz_path, ok)])
    (run inps st).1.
Proof.
  apply (run_invariant (fun _ => True)); [|done].
  intros inp st0 st' tr _ Ht. split; [done|]. simpl.
  apply tick_cases in Ht as [_ [(_ & sfz_path & Hm & _ & He & _)|(_ & _ & He & _)]];
    [right; by exists sfz_path, (pipe_ok inp)|by left].
Qed.

(** C2. Take a run that starts with a request and in which each request is
    recorded less than [DEBOUNCE_SECONDS] after the one before it, on a
    clock that never runs backwards. Then an iteration that writes to the
    engine has no request after it; the program it holds is the program of
    the last request; and what it sends is the load command for that
    program. No earlier request of the sequence is ever loaded. *)
Theorem requests_coalesce first rest st :
  is_Some (request first) →
  clock_monotone (clock_recv first) (first :: rest) →
  gaps_below DEBOUNCE_SECONDS (pc_events (first :: rest)).*1 →
  ∀ k it,
    (run (first :: rest) st).1 !! k = Some it →
    engine_writes it.2 ≠ [] →
    pc_events (drop (S k) (first :: rest)) = []
    ∧ snd <$> last (pc_events (first :: rest))
      = Some (last_requested_program it.1)
    ∧ ∃ sfz_path ok,
        SFZ_MAP !! last_requested_program it.1 = Some sfz_path
        ∧ engine_writes it.2 = [(load_command sfz_path, ok)].
Proof.
  intros [p0 Hreq] Hclk Hgaps k it Hk Hew.
  assert (Hlater : pc_events (drop (S k) (first :: rest)) = []).
  { destruct (tick first st) as [[st1 tr1]|e] eqn:Ht;
      [|by rewrite (run_cons_raise _ _ _ _ Ht) in Hk].
    rewrite (run_cons _ _ _ _ _ Ht) in Hk. cbn [fst] in Hk.
    destruct Hclk as (_ & H2 & Hrest).
    pose proof Ht as [Hpend _]%tick_cases.
    rewrite Hreq in Hpend. destruct Hpend as [_ Htime].
    rewrite pc_events_cons, Hreq in Hgaps. simpl in Hgaps.
    rewrite <- Htime in Hgaps.
    destruct k as [|k]; simpl in Hk.
    - injection Hk as <-. simpl. rewrite drop_0.
      by apply (send_then_no_request _ _ _ _ _ Ht).
    - simpl. eapply (no_send_before_request rest st1 (clock_now first));
        [|exact Hrest|exact Hgaps|exact Hk|exact Hew].
      rewrite Htime. exact H2. }
  split; [exact Hlater|]. split.
  - rewrite (run_requested _ _ _ _ Hk).
    rewrite <- (take_drop (S k) (first :: rest)) at 1.
    rewrite pc_events_app, Hlater, app_nil_r.
    rewrite firstn_cons, pc_events_cons, Hreq, last_cons.
    by destruct (last (pc_events (take k rest))).
  - pose proof (run_sends (first :: rest) st) as Hall.
    rewrite Forall_lookup in Hall.
    by destruct (Hall k it Hk) as [He|He].
Qed.

(** The scenario of the debounce: 11, 10 and 11 are requested at 0.125,
    0.25 and 0.375; the one load happens at 1, the first iteration at least
    half a second later, for 11, and the file then holds 11. *)
Example three_requests_one_load :
  let inps :=
    [change_at 0.125 11; idle_at 0.1875; change_at 0.25 10; change_at 0.375 11;
     idle_at 0.5; idle_at 0.75; idle_at 1; idle_at 1.25] in
  let hist := (run inps (initial_state 10 0)).1 in
  map (fun it => engine_writes it.2) hist
  = [[]; []; []; []; []; []; [(load_command clavinet, true)]; []]
  ∧ file_after Missing (effects_of hist) = Contents "11"
  ∧ (run inps (initial_state 10 0)).2
    = Return {| current_program := 11; last_requested_program := 11;
                last_request_time := 0.375 |}.
Proof. by vm_compute. Qed.

Lemma requests_coalesce_witness :
  let inps :=
    [change_at 0.125 11; idle_at 0.1875; change_at 0.25 10; change_at 0.375 11;
     idle_at 0.5; idle_at 0.75; idle_at 1; idle_at 1.25] in
  let it :=
    ({| current_program := 11; last_requested_program := 11;
        last_request_time := 0.375 |},
     [Log (LogDebouncedLoad 11 clavinet); WriteFile "11" IoOk;
      EngineWrite (load_command clavinet) true]) in
  pc_events (drop 7 inps) = []
  ∧ snd <$> last (pc_events inps) = Some (last_requested_program it.1)
  ∧ ∃ sfz_path ok,
      SFZ_MAP !! last_requested_program it.1 = Some sfz_path
      ∧ engine_writes it.2 = [(load_command sfz_path, ok)].
Proof.
  intros inps it.
  apply (requests_coalesce (change_at 0.125 11)
    [idle_at 0.1875; change_at 0.25 10; change_at 0.375 11;
     idle_at 0.5; idle_at 0.75; idle_at 1; idle_at 1.25]
    (initial_state 10 0) ltac:(by eexists)
    ltac:(by vm_compute) ltac:(by vm_compute) 6%nat it
    ltac:(vm_compute; reflexivity) ltac:(discriminate)).
Defined.

(** ** Messages of other kinds *)

(** The two masks of the loop together look at the whole status byte. *)
Lemma is_program_change_byte status rest :
  is_program_change (status :: rest) = true ↔ Z.land status 0xFF = 0xC0.
Proof.
  unfold is_program_change, common_midi_channel, COMMON_CHANNEL.
  rewrite andb_true_iff, !bool_decide_eq_true.
  change 0xFF with (Z.lor 0xF0 0x0F). rewrite Z.land_lor_distr_r.
  split.
  - intros [-> ->]. reflexivity.
  - intros H.
    assert (H1 : Z.land (Z.lor (Z.land status 0xF0) (Z.land status 0x0F)) 0xF0
                 = Z.land 0xC0 0xF0) by (by rewrite H).
    assert (H2 : Z.land (Z.lor (Z.land status 0xF0) (Z.land status 0x0F)) 0x0F
                 = Z.land 0xC0 0x0F) by (by rewrite H).
    rewrite Z.land_lor_distr_l, <- !Z.land_assoc in H1, H2.
    simpl Z.land in H1, H2.
    rewrite Z.land_0_r in H1, H2.
    rewrite Z.lor_0_r in H1. rewrite Z.lor_0_l in H2. by split.
Qed.

Lemma tick_without_message inp st :
  on_message inp st = Return (st, []) →
  tick inp st = tick (without_message inp) st.
Proof. intros H. unfold tick. rewrite H. reflexivity. Qed.

(** X1. A message whose status byte is any byte other than 0xC0 (another
    kind of message, or a Program Change on another channel) is as good as
    no message: the iteration does what it would have done with nothing
    polled. *)
Theorem other_status_inert inp st status rest delta :
  in_msg inp = Some (status :: rest, delta) →
  0 ≤ status < 256 →
  status ≠ 0xC0 →
  tick inp st = tick (without_message inp) st.
Proof.
  intros Hmsg Hbyte Hne. apply tick_without_message.
  eapply on_message_other; [exact Hmsg|done|].
  destruct (is_program_change (status :: rest)) eqn:Hpc; [|done].
  apply is_program_change_byte in Hpc.
  change 0xFF with (Z.ones 8) in Hpc. rewrite Z.land_ones in Hpc by done.
  rewrite Z.mod_small in Hpc by lia. done.
Qed.

Lemma other_status_inert_witness :
  let note_on :=
    {| in_msg := Some ([0x90; 60; 100], 0%Q); clock_recv := 1; clock_now := 1;
       disk := IoOk; pipe_ok := true |} in
  let st := {| current_program := 10; last_requested_program := 11;
               last_request_time := 0.125 |} in
  tick note_on st = tick (without_message note_on) st.
Proof.
  intros note_on st.
  apply (other_status_inert note_on st 0x90 [60; 100] 0%Q); [reflexivity|lia|lia].
Defined.

(** X2. The message [force_initial_program] builds is one the loop reads
    back as a request for the same program; and when the loop is in its
    initial state for that program, this echo writes nothing to the engine
    or to the file, whatever the clock shows. *)
Theorem forced_program_echo inp st p delta :
  in_msg inp = Some (force_initial_program p, delta) →
  ∃ st' tr,
    tick inp st = Return (st', tr)
    ∧ last_requested_program st' = p
    ∧ last_request_time st' = clock_recv inp
    ∧ (current_program st = p →
       current_program st' = p ∧ engine_writes tr = [] ∧ file_writes tr = []).
Proof.
  intros Hmsg. unfold force_initial_program in Hmsg.
  assert (Hpc : is_program_change [Z.lor 0xC0 common_midi_channel; p] = true)
    by reflexivity.
  pose proof (on_message_request inp st _ _ _ _ Hmsg Hpc) as H1.
  destruct (debounce_check_returns inp
    {| current_program := current_program st;
       last_requested_program := p;
       last_request_time := clock_recv inp |}) as (st' & tr2 & H2).
  pose proof (tick_intro _ _ _ _ _ _ H1 H2) as Ht.
  eexists _, _. split; [exact Ht|].
  apply tick_cases in Ht as [Hreq Hcase].
  unfold request in Hreq. rewrite Hmsg, Hpc in Hreq. simpl in Hreq.
  destruct Hreq as [Hp Htime]. do 2 (split; [done|]).
  intros Hcur.
  destruct Hcase as [((_ & Hne & _) & _)|(_ & Hf & He & Hc)]; [congruence|].
  by rewrite Hc.
Qed.

Lemma forced_program_echo_witness :
  ∃ st' tr,
    tick {| in_msg := Some (force_initial_program 12, 0%Q);
            clock_recv := 5; clock_now := 5; disk := IoOk; pipe_ok := true |}
         (initial_state 12 0) = Return (st', tr)
    ∧ last_requested_program st' = 12
    ∧ last_request_time st' = 5%Q
    ∧ (current_program (initial_state 12 0) = 12 →
       current_program st' = 12 ∧ engine_writes tr = [] ∧ file_writes tr = []).
Proof.
  apply (forced_program_echo
    {| in_msg := Some (force_initial_program 12, 0%Q);
       clock_recv := 5; clock_now := 5; disk := IoOk; pipe_ok := true |}
    (initial_state 12 0) 12 0%Q).
  reflexivity.
Defined.

(** ** More on runs *)

Lemma run_app inps1 inps2 :
  ∀ st,
    run (inps1 ++ inps2) st =
      match (run inps1 st).2 with
      | Return st1 => ((run inps1 st).1 ++ (run inps2 st1).1, (run inps2 st1).2)
      | Raise e => ((run inps1 st).1, Raise e)
      end.
Proof.
  induction inps1 as [|inp rest IH]; intros st.
  - simpl. by destruct (run inps2 st).
  - destruct (tick inp st) as [[st' tr]|e] eqn:Ht.
    + rewrite <- app_comm_cons, !(run_cons _ _ _ _ _ Ht), IH. cbn [fst snd].
      by destruct ((run rest st').2).
    + by rewrite <- app_comm_cons, !(run_cons_raise _ _ _ _ Ht).
Qed.

Lemma last_state_cons st st' tr hist :
  last_state st ((st', tr) :: hist) = last_state st' hist.
Proof.
  unfold last_state. rewrite last_cons. by destruct (last hist).
Qed.

Lemma run_last_state inps :
  ∀ st st_end,
    (run inps st).2 = Return st_end → last_state st (run inps st).1 = st_end.
Proof.
  induction inps as [|inp rest IH]; intros st st_end; [by intros [= <-]|].
  destruct (tick inp st) as [[st' tr]|e] eqn:Ht.
  - rewrite (run_cons _ _ _ _ _ Ht). cbn [fst snd]. rewrite last_state_cons.
    apply IH.
  - by rewrite (run_cons_raise _ _ _ _ Ht).
Qed.

Lemma tick_returns_on_complete_aux inp st :
  complete inp → ∃ st' tr, tick inp st = Return (st', tr).
Proof.
  intros Hc. destruct (tick inp st) as [[st' tr]|e] eqn:Ht; [by eauto|].
  exfalso. unfold tick in Ht.
  destruct (on_message inp st) as [[st1 tr1]|e1] eqn:H1.
  - simpl in Ht. destruct (debounce_check_returns inp st1) as (st2 & tr2 & H2).
    by rewrite H2 in Ht.
  - clear Ht. unfold complete, complete_message in Hc. unfold on_message in H1.
    destruct (in_msg inp) as [[data delta]|]; [|done].
    destruct Hc as [Hne Hlen]. destruct data as [|status rest]; [done|].
    simpl in *. destruct (bool_decide _ && bool_decide _); [|done].
    destruct rest as [|program rest]; [|done].
    specialize (Hlen eq_refl). simpl in Hlen. lia.
Qed.

Lemma run_complete inps :
  ∀ st,
    Forall complete inps →
    length (run inps st).1 = length inps
    ∧ ∃ st_end, (run inps st).2 = Return st_end.
Proof.
  induction inps as [|inp rest IH]; intros st Hc; [by eauto|].
  apply Forall_cons in Hc as [Hc Hrest].
  destruct (tick_returns_on_complete_aux inp st Hc) as (st' & tr & Ht).
  rewrite (run_cons _ _ _ _ _ Ht). cbn [fst snd length].
  destruct (IH st' Hrest) as [Hlen Hend]. by rewrite Hlen.
Qed.

(** X3. A message the loop cannot decode ends the loop on the spot: every
    iteration before it is completed, the [IndexError] is the result of the
    run, and nothing polled after it is looked at. *)
Theorem run_stops_at_incomplete pre bad post st :
  Forall complete pre →
  ¬ complete bad →
  run (pre ++ bad :: post) st = ((run pre st).1, Raise IndexError)
  ∧ length (run pre st).1 = length pre.
Proof.
  intros Hpre Hbad.
  destruct (run_complete pre st Hpre) as [Hlen [st1 Hend]].
  split; [|done]. rewrite run_app, Hend.
  rewrite (run_cons_raise _ _ _ _ (tick_raises_on_incomplete bad st1 Hbad)).
  cbn [fst snd]. by rewrite app_nil_r.
Qed.

Lemma run_stops_at_incomplete_witness :
  let bad := {| in_msg := Some ([0xC0], 0%Q); clock_recv := 0.5;
                clock_now := 0.5; disk := IoOk; pipe_ok := true |} in
  run ([change_at 0.125 11; idle_at 0.25] ++ bad :: [idle_at 1; idle_at 2])
      (initial_state 10 0)
  = ((run [change_at 0.125 11; idle_at 0.25] (initial_state 10 0)).1,
     Raise IndexError)
  ∧ length (run [change_at 0.125 11; idle_at 0.25] (initial_state 10 0)).1
    = 2%nat.
Proof.
  intros bad.
  apply (run_stops_at_incomplete [change_at 0.125 11; idle_at 0.25] bad
           [idle_at 1; idle_at 2] (initial_state 10 0)).
  - repeat constructor; try done; simpl; intros _; lia.
  - intros [_ H]. specialize (H eq_refl). simpl in H. lia.
Defined.

(** ** The debounce fires once *)

Lemma quiet_tick_early q st :
  quiet q →
  (clock_now q - last_request_time st < DEBOUNCE_SECONDS)%Q →
  tick q st = Return (st, []).
Proof.
  intros Hq Hearly.
  apply (tick_intro _ _ _ _ _ _ (on_message_quiet q st Hq)).
  apply debounce_check_not_due. intros (_ & _ & Hd). lra.
Qed.

Lemma run_quiet_early early :
  ∀ st,
    Forall quiet early →
    Forall (fun q => (clock_now q - last_request_time st < DEBOUNCE_SECONDS)%Q) early →
    run early st = (map (fun _ => (st, [])) early, Return st).
Proof.
  induction early as [|q early IH]; intros st Hq He; [done|].
  apply Forall_cons in Hq as [Hq Hqs]. apply Forall_cons in He as [He Hes].
  rewrite (run_cons _ _ _ _ _ (quiet_tick_early q st Hq He)).
  by rewrite (IH st Hqs Hes).
Qed.

Lemma run_quiet_settled later :
  ∀ st,
    Forall quiet later →
    last_requested_program st = current_program st →
    run later st = (map (fun _ => (st, [])) later, Return st).
Proof.
  induction later as [|q later IH]; intros st Hq He; [done|].
  apply Forall_cons in Hq as [Hq Hqs].
  rewrite (run_cons _ _ _ _ _ (quiet_tick_settled q st Hq He)).
  by rewrite (IH st Hqs He).
Qed.

(** X4. A request that is held for a mapped program other than the current
    one, left alone, is loaded exactly once: the iterations that come less
    than [DEBOUNCE_SECONDS] after the request write nothing, the first one
    that comes at or after it sends the load command, and, the send having
    succeeded, no later iteration writes again. *)
Theorem request_loaded_once st early q later :
  Forall quiet (early ++ q :: later) →
  Forall (fun e => (clock_now e - last_request_time st < DEBOUNCE_SECONDS)%Q) early →
  commit_due (current_program st) st (clock_now q) →
  pipe_ok q = true →
  ∃ sfz_path,
    SFZ_MAP !! last_requested_program st = Some sfz_path
    ∧ map (fun it => engine_writes it.2) (run (early ++ q :: later) st).1
      = replicate (length early) []
        ++ [(load_command sfz_path, true)] :: replicate (length later) []
    ∧ (run (early ++ q :: later) st).2 = Return (loaded st).
Proof.
  intros Hq Hearly Hdue Hok.
  apply Forall_app in Hq as [Hqe Hq]. apply Forall_cons in Hq as [Hq Hql].
  destruct (quiet_tick_due q st Hq Hdue) as (sfz_path & Hm & Ht).
  rewrite Hok in Ht. exists sfz_path. split; [done|].
  rewrite run_app, (run_quiet_early early st Hqe Hearly). cbn [fst snd].
  rewrite (run_cons _ _ _ _ _ Ht).
  rewrite (run_quiet_settled later (loaded st) Hql eq_refl). cbn [fst snd].
  split; [|done].
  rewrite map_app, map_cons, !map_map. cbn [fst snd].
  rewrite engine_writes_load, Hok. f_equal.
  - clear. induction early; simpl; by f_equal.
  - f_equal. clear. induction later; simpl; by f_equal.
Qed.

Lemma request_loaded_once_witness :
  ∃ sfz_path,
    SFZ_MAP !! 11 = Some sfz_path
    ∧ map (fun it => engine_writes it.2)
        (run ([idle_at 0.25; idle_at 0.5] ++ idle_at 1 :: [idle_at 2; idle_at 3])
           {| current_program := 10; last_requested_program := 11;
              last_request_time := 0.125 |}).1
      = replicate 2 [] ++ [(load_command sfz_path, true)] :: replicate 2 []
    ∧ (run ([idle_at 0.25; idle_at 0.5] ++ idle_at 1 :: [idle_at 2; idle_at 3])
         {| current_program := 10; last_requested_program := 11;
            last_request_time := 0.125 |}).2
      = Return {| current_program := 11; last_requested_program := 11;
                  last_request_time := 0.125 |}.
Proof.
  apply (request_loaded_once
    {| current_program := 10; last_requested_program := 11;
       last_request_time := 0.125 |}
    [idle_at 0.25; idle_at 0.5] (idle_at 1) [idle_at 2; idle_at 3]).
  - repeat constructor.
  - repeat constructor; by vm_compute.
  - split; [by eexists|]. split; [done|]. by vm_compute.
  - reflexivity.
Defined.

(** ** The state, the engine and the file *)

Lemma effects_of_cons st' tr hist :
  effects_of ((st', tr) :: hist) = tr ++ effects_of hist.
Proof. reflexivity. Qed.

Lemma accepted_app tr1 tr2 :
  accepted (tr1 ++ tr2) = accepted tr1 ++ accepted tr2.
Proof. unfold accepted. by rewrite engine_writes_app, omap_app. Qed.

(** X5. [current_program] follows the engine: at any point of any run, if
    the engine has accepted a command during the run, the last one it
    accepted is the load command for the SFZ path of [current_program]; if
    it has accepted none, [current_program] is what it was at the start. *)
Theorem current_program_follows_engine inps :
  ∀ st,
    match last (accepted (effects_of (run inps st).1)) with
    | Some cmd =>
        ∃ sfz_path,
          SFZ_MAP !! current_program (last_state st (run inps st).1) = Some sfz_path
          ∧ cmd = load_command sfz_path
    | None =>
        current_program (last_state st (run inps st).1) = current_program st
    end.
Proof.
  induction inps as [|inp rest IH]; intros st; [done|].
  destruct (tick inp st) as [[st' tr]|e] eqn:Ht;
    [|by rewrite (run_cons_raise _ _ _ _ Ht)].
  rewrite (run_cons _ _ _ _ _ Ht). cbn [fst].
  rewrite effects_of_cons, accepted_app, last_app, last_state_cons.
  specialize (IH st').
  destruct (last (accepted (effects_of (run rest st').1))) as [cmd|]; [done|].
  rewrite IH. unfold accepted.
  apply tick_cases in Ht as [_ [(_ & sfz_path & Hm & _ & He & Hc)|(_ & _ & He & Hc)]];
    rewrite He; simpl; [|done].
  destruct (pipe_ok inp); simpl; [|done].
  exists sfz_path. by rewrite Hc.
Qed.

Lemma file_after_app f tr1 tr2 :
  file_after f (tr1 ++ tr2) = file_after (file_after f tr1) tr2.
Proof. apply fold_left_app. Qed.

Lemma file_after_no_writes tr :
  ∀ f, file_writes tr = [] → file_after f tr = f.
Proof.
  induction tr as [|e tr IH]; intros f H; [done|].
  destruct e; simpl in *; try done; by apply IH.
Qed.

Lemma file_after_one_write tr text :
  ∀ f, file_writes tr = [(text, IoOk)] → file_after f tr = Contents text.
Proof.
  induction tr as [|e tr IH]; intros f H; [done|].
  destruct e; simpl in *; try by apply IH.
  injection H as -> -> H. simpl. by apply file_after_no_writes.
Qed.

Lemma run_file_current inps :
  ∀ st f,
    healthy inps →
    f = Contents (str (current_program st))
    ∨ file_writes (effects_of (run inps st).1) ≠ [] →
    file_after f (effects_of (run inps st).1)
    = Contents (str (current_program (last_state st (run inps st).1))).
Proof.
  induction inps as [|inp rest IH]; intros st f Hh Hstart.
  { by destruct Hstart. }
  apply Forall_cons in Hh as [[Hdisk Hpipe] Hh].
  destruct (tick inp st) as [[st' tr]|e] eqn:Ht.
  - rewrite (run_cons _ _ _ _ _ Ht) in *. cbn [fst] in *.
    rewrite effects_of_cons, file_after_app, last_state_cons in *.
    apply tick_cases in Ht as [_ [(_ & p & _ & Hf & _ & Hc)|(_ & Hf & _ & Hc)]].
    + rewrite Hdisk in Hf. rewrite Hpipe in Hc.
      apply IH; [done|]. left.
      rewrite (file_after_one_write _ _ _ Hf). by rewrite Hc.
    + rewrite (file_after_no_writes _ _ Hf). apply IH; [done|].
      rewrite file_writes_app, Hf in Hstart. simpl in Hstart.
      destruct Hstart as [->|Hw]; [left; by rewrite Hc|by right].
  - rewrite (run_cons_raise _ _ _ _ Ht) in *. by destruct Hstart.
Qed.

(** X6. With the disk and the pipe in order, the file keeps up with
    [current_program]: once the file holds [current_program], or once the
    loop has written it at all, it holds the decimal text of
    [current_program] at every later point of the run. *)
Theorem file_tracks_current inps st f :
  healthy inps →
  f = Contents (str (current_program st))
  ∨ file_writes (effects_of (run inps st).1) ≠ [] →
  file_after f (effects_of (run inps st).1)
  = Contents (str (current_program (last_state st (run inps st).1))).
Proof. apply run_file_current. Qed.

Lemma file_tracks_current_witness :
  let inps := [change_at 0.125 11; idle_at 1; change_at 2 99; idle_at 3;
               change_at 4 13; idle_at 5; idle_at 6] in
  file_after Missing (effects_of (run inps (initial_state 10 0)).1)
  = Contents (str (current_program
                     (last_state (initial_state 10 0)
                        (run inps (initial_state 10 0)).1))).
Proof.
  intros inps.
  apply (file_tracks_current inps (initial_state 10 0) Missing).
  - repeat constructor.
  - right. by vm_compute.
Defined.

Lemma last_state_current_in_map inps st :
  is_Some (SFZ_MAP !! current_program st) →
  is_Some (SFZ_MAP !! current_program (last_state st (run inps st).1)).
Proof.
  intros Hst.
  destruct (run_invariant
    (fun st => is_Some (SFZ_MAP !! current_program st))
    (fun it => is_Some (SFZ_MAP !! current_program it.1))) with (inps := inps) (st := st)
    as [Hall _]; [|done|].
  - intros inp st0 st' tr HP Ht.
    assert (is_Some (SFZ_MAP !! current_program st')); [|done].
    apply tick_cases in Ht as [_ [(_ & p & Hm & _ & _ & Hc)|(_ & _ & _ & Hc)]];
      rewrite Hc; [|done].
    destruct (pipe_ok inp); [by rewrite Hm|done].
  - unfold last_state. destruct (last (run inps st).1) as [it|] eqn:Hl; [|done].
    simpl. rewrite Forall_forall in Hall. apply Hall.
    rewrite last_lookup in Hl. by eapply list_elem_of_lookup_2.
Qed.

Lemma run_no_writes_current inps :
  ∀ st,
    file_writes (effects_of (run inps st).1) = [] →
    current_program (last_state st (run inps st).1) = current_program st.
Proof.
  induction inps as [|inp rest IH]; intros st Hw; [done|].
  destruct (tick inp st) as [[st' tr]|e] eqn:Ht;
    [|by rewrite (run_cons_raise _ _ _ _ Ht)].
  rewrite (run_cons _ _ _ _ _ Ht) in *. cbn [fst] in *.
  rewrite effects_of_cons, file_writes_app in Hw.
  apply app_eq_nil in Hw as [Hw1 Hw2].
  rewrite last_state_cons, (IH st' Hw2).
  apply tick_cases in Ht as [_ [(_ & p & _ & Hf & _)|(_ & _ & _ & Hc)]]; [|done].
  by rewrite Hf in Hw1.
Qed.

Lemma load_last_program_key (int_of_text : string → option Z) f p log :
  load_last_program int_of_text f = Return (p, log) → is_Some (SFZ_MAP !! p).
Proof.
  unfold load_last_program, read_last_program.
  destruct f as [| |text]; simpl; try by intros [= <- <-].
  destruct (int_of_text text) as [val|]; simpl; [|by intros [= <- <-]].
  destruct (bool_decide (is_Some (SFZ_MAP !! val))) eqn:Hm; simpl;
    intros [= <- <-]; [|done].
  by apply bool_decide_eq_true in Hm.
Qed.

(** X7. Stopping and starting again resumes where the loop was. Take a file
    that is not unreadable, a loop that starts with the [current_program]
    that [load_last_program] returns on it (as [main] does), a run in which
    no write to the disk or to the engine fails, and an integer parser that
    reads back what [str] prints for the keys of [SFZ_MAP]. Then
    [load_last_program], on the file as a reader finds it after the run,
    returns the [current_program] the run ended with. *)
Theorem restart_resumes (int_of_text : string → option Z) inps st f log :
  (∀ p, is_Some (SFZ_MAP !! p) → int_of_text (str p) = Some p) →
  f ≠ Unreadable →
  load_last_program int_of_text f = Return (current_program st, log) →
  healthy inps →
  ∃ log',
    load_last_program int_of_text
      (read_back f (file_after f (effects_of (run inps st).1)))
    = Return (current_program (last_state st (run inps st).1), log').
Proof.
  intros Hparse Hf Hload Hh.
  assert (Hrb : ∀ after, read_back f after = after) by (by destruct f).
  rewrite Hrb.
  destruct (file_writes (effects_of (run inps st).1)) as [|w ws] eqn:Hw.
  - rewrite (file_after_no_writes _ _ Hw), (run_no_writes_current inps st Hw).
    by exists log.
  - rewrite (run_file_current inps st f Hh) by (right; by rewrite Hw).
    pose proof (last_state_current_in_map inps st
                  (load_last_program_key _ _ _ _ Hload)) as Hk.
    exists []. unfold load_last_program, read_last_program. simpl.
    rewrite (Hparse _ Hk). simpl. by rewrite bool_decide_eq_true_2.
Qed.

Lemma SFZ_MAP_items : SFZ_MAP = list_to_map SFZ_ITEMS.
Proof. reflexivity. Qed.

Lemma SFZ_MAP_keys p :
  is_Some (SFZ_MAP !! p) ↔ p ∈ [10; 11; 12; 13; 14; 15; 16].
Proof.
  split.
  - intros [sfz_path H]. rewrite SFZ_MAP_items in H.
    apply elem_of_list_to_map_2 in H.
    change [10; 11; 12; 13; 14; 15; 16] with (SFZ_ITEMS.*1).
    apply list_elem_of_fmap. by exists (p, sfz_path).
  - intros H. repeat (apply elem_of_cons in H as [->|H]; [by eexists|]).
    by apply elem_of_nil in H.
Qed.

Lemma decimal_int_reads_keys p :
  is_Some (SFZ_MAP !! p) → decimal_int (str p) = Some p.
Proof.
  intros H%SFZ_MAP_keys.
  repeat (apply elem_of_cons in H as [->|H]; [reflexivity|]).
  by apply elem_of_nil in H.
Qed.

Lemma restart_resumes_witness :
  let inps := [change_at 0.125 11; idle_at 1; change_at 2 99; idle_at 3;
               change_at 4 13; idle_at 5; idle_at 6] in
  ∃ log',
    load_last_program decimal_int
      (read_back Missing
         (file_after Missing (effects_of (run inps (initial_state 10 0)).1)))
    = Return (current_program
                (last_state (initial_state 10 0) (run inps (initial_state 10 0)).1),
              log').
Proof.
  intros inps.
  apply (restart_resumes decimal_int inps (initial_state 10 0) Missing []).
  - exact decimal_int_reads_keys.
  - done.
  - reflexivity.
  - repeat constructor.
Defined.

Example restart_resumes_at_13 :
  let inps := [change_at 0.125 11; idle_at 1; change_at 2 99; idle_at 3;
               change_at 4 13; idle_at 5; idle_at 6] in
  load_last_program decimal_int
    (read_back Missing
       (file_after Missing (effects_of (run inps (initial_state 10 0)).1)))
  = Return (13, [])
  ∧ load_last_program decimal_int
      (read_back Unreadable
         (file_after Unreadable (effects_of (run inps (initial_state 10 0)).1)))
    = Return (10, [Log (LogReadFailed OSError)]).
Proof. by vm_compute. Qed.

(** X8. Saving and loading, the file being read back as a reader finds it.
    After a save that succeeds, [load_last_program] returns the saved
    program when it is a key of [SFZ_MAP] and the default 10 when it is
    not; unless the file could not be read to begin with, in which case it
    still cannot: the load logs the failure and returns 10. After a save
    that could not open the file, the load returns what it would have
    returned before. The parser is any that reads back what [str] prints
    for the program. *)
Theorem save_then_load (int_of_text : string → option Z) (f : file) (program : Z) :
  int_of_text (str program) = Some program →
  load_last_program int_of_text
    (read_back f (file_after f (save_last_program program IoOk)))
  = match f with
    | Unreadable => Return (10, [Log (LogReadFailed OSError)])
    | _ => Return (if bool_decide (is_Some (SFZ_MAP !! program))
                   then program else 10, [])
    end
  ∧ load_last_program int_of_text
      (read_back f (file_after f (save_last_program program OpenFailed)))
    = load_last_program int_of_text f.
Proof.
  intros Hparse. split; [|by destruct f].
  destruct f; [|done|];
    unfold load_last_program, read_last_program; simpl; rewrite Hparse; simpl;
    by destruct (bool_decide (is_Some (SFZ_MAP !! program))).
Qed.

Lemma save_then_load_witness :
  load_last_program decimal_int
    (read_back (Contents "13")
       (file_after (Contents "13") (save_last_program 14 IoOk)))
  = Return (if bool_decide (is_Some (SFZ_MAP !! 14)) then 14 else 10, [])
  ∧ load_last_program decimal_int
      (read_back (Contents "13")
         (file_after (Contents "13") (save_last_program 14 OpenFailed)))
    = load_last_program decimal_int (Contents "13").
Proof.
  apply (save_then_load decimal_int (Contents "13") 14). reflexivity.
Defined.

Example save_then_load_write_only :
  load_last_program decimal_int
    (read_back Unreadable (file_after Unreadable (save_last_program 14 IoOk)))
  = Return (10, [Log (LogReadFailed OSError)]).
Proof. reflexivity. Qed.

(** ** The port search *)

Lemma prefix_app needle hay :
  String.prefix needle hay = true ↔ ∃ post, hay = needle +:+ post.
Proof.
  revert hay. induction needle as [|c needle IH]; intros [|c' hay]; simpl.
  - split; [by exists EmptyString|done].
  - split; [by exists (String c' hay)|done].
  - split; [done|by intros [post H]].
  - destruct (Ascii.ascii_dec c c') as [->|Hne].
    + rewrite IH. split; intros [post H]; exists post; [by rewrite H|].
      by injection H.
    + split; [done|]. intros [post H]. by injection H.
Qed.

Lemma contains_nil needle :
  contains needle EmptyString = String.prefix needle EmptyString || false.
Proof. reflexivity. Qed.

Lemma contains_cons needle c hay :
  contains needle (String c hay)
  = String.prefix needle (String c hay) || contains needle hay.
Proof. reflexivity. Qed.

(** [contains] is the substring test. *)
Lemma contains_substring needle hay :
  contains needle hay = true ↔ ∃ pre post, hay = pre +:+ needle +:+ post.
Proof.
  induction hay as [|c hay IH].
  - rewrite contains_nil, orb_false_r, prefix_app. split.
    + intros [post H]. by exists EmptyString, post.
    + intros (pre & post & H). destruct pre; [by exists post|done].
  - rewrite contains_cons, orb_true_iff, prefix_app, IH. split.
    + intros [[post H]|(pre & post & H)].
      * by exists EmptyString, post.
      * exists (String c pre), post. simpl. by rewrite H.
    + intros (pre & post & H). destruct pre as [|c' pre]; simpl in H.
      * left. by exists post.
      * right. injection H as _ H. by exists pre, post.
Qed.

(** A name that contains "SL CTRL" contains "SL". *)
Lemma contains_sl_ctrl name :
  contains "SL CTRL" name = true → contains "SL" name = true.
Proof.
  rewrite !contains_substring. intros (pre & post & ->).
  exists pre, (" CTRL" +:+ post). reflexivity.
Qed.

Lemma first_match_Some needle ports :
  ∀ i idx name,
    first_match needle i ports = Some (idx, name) →
    ∃ k, idx = (i + k)%nat
         ∧ ports !! k = Some name
         ∧ contains needle name = true
         ∧ ∀ j n, (j < k)%nat → ports !! j = Some n → contains needle n = false.
Proof.
  induction ports as [|port rest IH]; intros i idx name H; [done|].
  simpl in H. destruct (contains needle port) eqn:Hc.
  - injection H as <- <-. exists 0%nat. repeat split; [lia|done|lia].
  - destruct (IH _ _ _ H) as (k & -> & Hk & Hn & Hbefore).
    exists (S k). repeat split; [lia|done..|].
    intros [|j] n Hj Hl; simpl in Hl; [by injection Hl as <-|].
    apply (Hbefore j); [lia|done].
Qed.

Lemma first_match_None needle ports :
  ∀ i, first_match needle i ports = None
       ↔ Forall (fun n => contains needle n = false) ports.
Proof.
  induction ports as [|port rest IH]; intros i; simpl; [by split|].
  rewrite Forall_cons. destruct (contains needle port).
  - split; [done|by intros [? _]].
  - rewrite IH. split; [done|by intros [_ ?]].
Qed.

Lemma no_sl_no_sl_ctrl ports :
  Forall (fun n => contains "SL" n = false) ports →
  Forall (fun n => contains "SL CTRL" n = false) ports.
Proof.
  intros H. eapply Forall_impl; [exact H|]. intros n Hn. simpl in Hn.
  destruct (contains "SL CTRL" n) eqn:Hc; [|done].
  apply contains_sl_ctrl in Hc. congruence.
Qed.

Lemma open_sl_ctrl_inv d ports open_ok tr idx name :
  open_sl_ctrl d ports open_ok = Done tr (idx, name) →
  ports !! idx = Some name
  ∧ ((contains "SL CTRL" name = true
      ∧ ∀ j n, (j < idx)%nat → ports !! j = Some n →
               contains "SL CTRL" n = false)
     ∨ (Forall (fun n => contains "SL CTRL" n = false) ports
        ∧ contains "SL" name = true
        ∧ ∀ j n, (j < idx)%nat → ports !! j = Some n → contains "SL" n = false))
  ∧ ∃ fallback, tr = [OpenPort d idx; SLog (LogOpened d fallback name idx)].
Proof.
  unfold open_sl_ctrl, open_port. destruct (bool_decide (ports = [])); [done|].
  destruct (first_match "SL CTRL" 0 ports) as [[i n]|] eqn:H1.
  - destruct open_ok; [|done]. simpl. intros [= <- <- <-].
    apply first_match_Some in H1 as (k & -> & Hk & Hn & Hbefore).
    split; [done|]. split; [left; by split|by eexists].
  - destruct (first_match "SL" 0 ports) as [[i n]|] eqn:H2; [|done].
    destruct open_ok; [|done]. simpl. intros [= <- <- <-].
    apply first_match_None in H1.
    apply first_match_Some in H2 as (k & -> & Hk & Hn & Hbefore).
    split; [done|]. split; [right; by repeat split|by eexists].
Qed.

(** X9. The port [open_sl_ctrl_in] and [open_sl_ctrl_out] open is the first
    listed port whose name contains "SL CTRL"; only when no name does, it is
    the first whose name contains "SL". It is the only port opened. *)
Theorem open_sl_ctrl_choice d ports open_ok tr idx name :
  open_sl_ctrl d ports open_ok = Done tr (idx, name) →
  ports !! idx = Some name
  ∧ ((contains "SL CTRL" name = true
      ∧ ∀ j n, (j < idx)%nat → ports !! j = Some n →
               contains "SL CTRL" n = false)
     ∨ (Forall (fun n => contains "SL CTRL" n = false) ports
        ∧ contains "SL" name = true
        ∧ ∀ j n, (j < idx)%nat → ports !! j = Some n → contains "SL" n = false))
  ∧ ∃ fallback, tr = [OpenPort d idx; SLog (LogOpened d fallback name idx)].
Proof. apply open_sl_ctrl_inv. Qed.

Lemma open_sl_ctrl_choice_witness :
  let ports := ["Midi Through:Midi Through Port-0 14:0";
                "SL STUDIO:SL STUDIO SL KEYB 24:0";
                "SL STUDIO:SL STUDIO SL CTRL 24:1"] in
  let name := "SL STUDIO:SL STUDIO SL CTRL 24:1" in
  ports !! 2%nat = Some name
  ∧ ((contains "SL CTRL" name = true
      ∧ ∀ j n, (j < 2)%nat → ports !! j = Some n →
               contains "SL CTRL" n = false)
     ∨ (Forall (fun n => contains "SL CTRL" n = false) ports
        ∧ contains "SL" name = true
        ∧ ∀ j n, (j < 2)%nat → ports !! j = Some n → contains "SL" n = false))
  ∧ ∃ fallback,
      [OpenPort MidiOut 2; SLog (LogOpened MidiOut false name 2)]
      = [OpenPort MidiOut 2; SLog (LogOpened MidiOut fallback name 2)].
Proof.
  intros ports name.
  apply (open_sl_ctrl_choice MidiOut ports true
    [OpenPort MidiOut 2; SLog (LogOpened MidiOut false name 2)] 2%nat name).
  reflexivity.
Defined.

Lemma open_sl_ctrl_none d ports open_ok :
  Forall (fun n => contains "SL" n = false) ports →
  ∃ msg, open_sl_ctrl d ports open_ok = Failed [] (RuntimeError msg).
Proof.
  intros Hno. unfold open_sl_ctrl.
  destruct (bool_decide (ports = [])); [by eexists|].
  rewrite (proj2 (first_match_None "SL CTRL" ports 0) (no_sl_no_sl_ctrl _ Hno)).
  rewrite (proj2 (first_match_None "SL" ports 0) Hno). by eexists.
Qed.

Lemma open_sl_ctrl_some d ports (open_ok : bool) :
  Exists (fun n => contains "SL" n = true) ports →
  if open_ok then ∃ tr port, open_sl_ctrl d ports open_ok = Done tr port
  else open_sl_ctrl d ports open_ok = Failed [] MidiError.
Proof.
  intros Hex. unfold open_sl_ctrl, open_port.
  rewrite bool_decide_eq_false_2 by (intros ->; by apply Exists_nil in Hex).
  destruct (first_match "SL CTRL" 0 ports) as [[i n]|] eqn:H1.
  { destruct open_ok; simpl; eauto. }
  destruct (first_match "SL" 0 ports) as [[i n]|] eqn:H2.
  { destruct open_ok; simpl; eauto. }
  apply first_match_None in H2. apply Exists_exists in Hex as (n & Hin & Hn).
  rewrite Forall_forall in H2. specialize (H2 n Hin). congruence.
Qed.

Lemma some_sl_or_none ports :
  Exists (fun n => contains "SL" n = true) ports
  ∨ Forall (fun n => contains "SL" n = false) ports.
Proof.
  destruct (decide (Forall (fun n => contains "SL" n = false) ports)) as [Hall|Hex];
    [by right|left].
  apply not_Forall_Exists in Hex; [|apply _].
  eapply Exists_impl; [exact Hex|]. intros n Hn. simpl in Hn.
  by destruct (contains "SL" n).
Qed.

(** X10. How the port search ends. It raises [RuntimeError], having opened
    nothing, exactly when no listed name contains "SL" (an empty list
    included). When some name does, it opens one port and returns, or, if
    that port fails to open, ends with the error of the MIDI library: no
    other port is tried. *)
Theorem open_sl_ctrl_outcome d ports open_ok :
  ((∃ tr msg, open_sl_ctrl d ports open_ok = Failed tr (RuntimeError msg))
   ↔ Forall (fun n => contains "SL" n = false) ports)
  ∧ (Forall (fun n => contains "SL" n = false) ports →
     ∃ msg, open_sl_ctrl d ports open_ok = Failed [] (RuntimeError msg))
  ∧ (Exists (fun n => contains "SL" n = true) ports →
     if open_ok then ∃ tr port, open_sl_ctrl d ports open_ok = Done tr port
     else open_sl_ctrl d ports open_ok = Failed [] MidiError).
Proof.
  split; [|split; [apply open_sl_ctrl_none|apply open_sl_ctrl_some]].
  split; [|intros Hno; destruct (open_sl_ctrl_none d ports open_ok Hno); eauto].
  intros (tr & msg & H).
  destruct (some_sl_or_none ports) as [Hex|Hall]; [exfalso|done].
  pose proof (open_sl_ctrl_some d ports open_ok Hex) as Hsome.
  destruct open_ok.
  - destruct Hsome as (tr' & port & H'). congruence.
  - congruence.
Qed.

(** ** Starting sfizz *)

Lemma SFZ_MAP_truthy p sfz_path :
  SFZ_MAP !! p = Some sfz_path → truthy sfz_path = true.
Proof.
  rewrite SFZ_MAP_items. intros H%elem_of_list_to_map_2.
  unfold SFZ_ITEMS in H.
  repeat (apply elem_of_cons in H as [[= -> ->]|H]; [reflexivity|]).
  by apply elem_of_nil in H.
Qed.

Lemma default_sfz_of_spec p :
  default_sfz_of p = Done [] (default wurlitzer (SFZ_MAP !! p)).
Proof.
  unfold default_sfz_of. destruct (SFZ_MAP !! p) as [sfz_path|] eqn:H; [|done].
  by rewrite (SFZ_MAP_truthy _ _ H).
Qed.

Lemma start_sfizz_spec p (spawn : bool) :
  start_sfizz p spawn =
    let cmd := sfizz_cmd (default wurlitzer (SFZ_MAP !! p)) in
    if spawn then Done [SLog (LogStarting (join_spaces cmd)); Popen cmd] cmd
    else Failed [SLog (LogStarting (join_spaces cmd))] SpawnError.
Proof.
  unfold start_sfizz. rewrite default_sfz_of_spec. by destruct spawn.
Qed.

(** X11. [start_sfizz] starts sfizz on the SFZ file of the program it is
    given when that is a key of [SFZ_MAP], and on the first entry of the map
    (the Wurlitzer) when it is not: the file is always one of the map, and
    the lookup never raises. *)
Theorem start_sfizz_instrument p (spawn : bool) :
  let sfz_path := default wurlitzer (SFZ_MAP !! p) in
  (∃ q, SFZ_MAP !! q = Some sfz_path)
  ∧ processes (trace_of (start_sfizz p spawn))
    = (if spawn then [sfizz_cmd sfz_path] else [])
  ∧ if spawn then ∃ tr, start_sfizz p spawn = Done tr (sfizz_cmd sfz_path)
    else ∃ tr, start_sfizz p spawn = Failed tr SpawnError.
Proof.
  simpl. rewrite start_sfizz_spec. split.
  - destruct (SFZ_MAP !! p) as [sfz_path|] eqn:H; [by exists p|by exists 10].
  - destruct spawn; simpl; split; by eauto.
Qed.

(** ** The startup as a whole *)

Lemma read_program_spec (int_of_text : string → option Z) f :
  ∃ p log,
    load_last_program int_of_text f = Return (p, log)
    ∧ is_Some (SFZ_MAP !! p)
    ∧ read_program int_of_text f = Done (map FromLoad log) p.
Proof.
  unfold read_program, load_last_program, read_last_program.
  destruct f as [| |text]; simpl; [by eexists _, _ ..|].
  destruct (int_of_text text) as [val|]; simpl; [|by eexists _, _].
  destruct (bool_decide (is_Some (SFZ_MAP !! val))) eqn:Hm; simpl;
    [|by eexists _, _].
  apply bool_decide_eq_true in Hm. by eexists _, _.
Qed.

Lemma open_ports_usable w :
  ports_usable w →
  ∃ tr ports, open_ports w = Done tr ports ∧ Forall local_only tr.
Proof.
  intros (Hin & Hoin & Hout & Hoout). unfold open_ports, open_sl_ctrl_in, open_sl_ctrl_out.
  pose proof (open_sl_ctrl_some MidiIn _ (open_in_ok w) Hin) as H1.
  pose proof (open_sl_ctrl_some MidiOut _ (open_out_ok w) Hout) as H2.
  rewrite Hoin in H1. rewrite Hoout in H2. rewrite Hoin, Hoout.
  destruct H1 as (tr1 & [i1 n1] & H1). destruct H2 as (tr2 & [i2 n2] & H2).
  rewrite H1. simpl. rewrite H2. simpl.
  apply open_sl_ctrl_inv in H1 as (_ & _ & fb1 & ->).
  apply open_sl_ctrl_inv in H2 as (_ & _ & fb2 & ->).
  eexists _, _. split; [done|]. by repeat constructor.
Qed.

Lemma open_ports_unusable w :
  ¬ ports_usable w →
  ∃ tr, open_ports w = Failed tr (SystemExit 1) ∧ Forall local_only tr.
Proof.
  intros Hn. unfold open_ports, open_sl_ctrl_in, open_sl_ctrl_out.
  destruct (some_sl_or_none (in_ports w)) as [Hin|Hin].
  - pose proof (open_sl_ctrl_some MidiIn _ (open_in_ok w) Hin) as H1.
    destruct (open_in_ok w) eqn:Hoin.
    + destruct H1 as (tr1 & [i1 n1] & H1). rewrite H1. simpl.
      apply open_sl_ctrl_inv in H1 as (_ & _ & fb1 & ->).
      destruct (some_sl_or_none (out_ports w)) as [Hout|Hout].
      * pose proof (open_sl_ctrl_some MidiOut _ (open_out_ok w) Hout) as H2.
        destruct (open_out_ok w) eqn:Hoout; [by destruct Hn|].
        rewrite H2. simpl. eexists. split; [done|]. by repeat constructor.
      * destruct (open_sl_ctrl_none MidiOut _ (open_out_ok w) Hout) as [msg H2].
        rewrite H2. simpl. eexists. split; [done|]. by repeat constructor.
    + rewrite H1. simpl. eexists. split; [done|]. by repeat constructor.
  - destruct (open_sl_ctrl_none MidiIn _ (open_in_ok w) Hin) as [msg H1].
    rewrite H1. simpl. eexists. split; [done|]. by repeat constructor.
Qed.

Lemma ports_usable_dec w : ports_usable w ∨ ¬ ports_usable w.
Proof.
  unfold ports_usable.
  destruct (some_sl_or_none (in_ports w)) as [Hin|Hin];
    destruct (some_sl_or_none (out_ports w)) as [Hout|Hout];
    destruct (open_in_ok w), (open_out_ok w); try (left; by repeat split);
    right; intros (Ei & ? & Eo & ?); try done.
  all: try (apply Exists_exists in Eo as (n & Hn & Hc);
            rewrite Forall_forall in Hout; specialize (Hout n Hn); congruence).
  all: apply Exists_exists in Ei as (n & Hn & Hc);
       rewrite Forall_forall in Hin; specialize (Hin n Hn); congruence.
Qed.

(** The startup once the ports are open. *)
Lemma main_startup_after_ports (int_of_text : string → option Z) w tr0 ports :
  open_ports w = Done tr0 ports →
  ∃ p log,
    load_last_program int_of_text (last_prog_file w) = Return (p, log)
    ∧ is_Some (SFZ_MAP !! p)
    ∧ main_startup int_of_text w =
        let cmd := sfizz_cmd (default wurlitzer (SFZ_MAP !! p)) in
        let tr1 := tr0 ++ map FromLoad log ++ [SLog (LogLastProgram p)] in
        if send_ok w then
          let tr2 := tr1 ++ [SendMessage (force_initial_program p);
                             SLog (LogForced p COMMON_CHANNEL);
                             SLog (LogStarting (join_spaces cmd))] in
          if spawn_ok w then
            Done (tr2 ++ Popen cmd :: jack_autoconnect (jack_spawns w)
                      ++ [SLog LogReady])
                 (initial_state p (clock_start w))
          else Failed tr2 SpawnError
        else Failed tr1 MidiError.
Proof.
  intros Hports.
  destruct (read_program_spec int_of_text (last_prog_file w)) as (p & log & Hl & Hk & Hr).
  exists p, log. do 2 (split; [done|]).
  unfold main_startup. rewrite Hports, Hr. cbn [mbind io_bind prepend emit].
  unfold send_initial_program. rewrite start_sfizz_spec.
  destruct (send_ok w); cbn [mbind io_bind prepend emit raise];
    [|by rewrite !app_nil_r, <- ?app_assoc].
  destruct (spawn_ok w); cbn [mbind io_bind prepend emit raise].
  - f_equal. rewrite !app_nil_r. by rewrite <- !app_assoc.
  - f_equal. rewrite ?app_nil_r. by rewrite <- !app_assoc.
Qed.

Lemma messages_app tr1 tr2 : messages (tr1 ++ tr2) = messages tr1 ++ messages tr2.
Proof. apply omap_app. Qed.

Lemma processes_app tr1 tr2 : processes (tr1 ++ tr2) = processes tr1 ++ processes tr2.
Proof. apply omap_app. Qed.

Lemma local_only_quiet tr :
  Forall local_only tr → messages tr = [] ∧ processes tr = [].
Proof.
  induction 1 as [|e tr He _ [IH1 IH2]]; [done|].
  destruct e; simpl in *; try done.
Qed.

Lemma from_load_quiet log :
  messages (map FromLoad log) = [] ∧ processes (map FromLoad log) = [].
Proof. induction log as [|e log [IH1 IH2]]; [done|]. by simpl. Qed.

Lemma jack_autoconnect_messages spawns :
  messages (jack_autoconnect spawns) = [].
Proof.
  unfold jack_autoconnect, jack_connect, midi_sources, audio_pairs. simpl.
  by repeat destruct (spawns _ _).
Qed.

Lemma jack_autoconnect_processes spawns :
  processes (jack_autoconnect spawns) = jack_children spawns.
Proof.
  unfold jack_children, jack_autoconnect, jack_connect, midi_sources, audio_pairs.
  simpl.
  repeat match goal with
         | |- context [spawns ?a ?b] => destruct (spawns a b)
         end; reflexivity.
Qed.

(** X12. When the startup reaches the loop, the SL88, sfizz and the loop
    agree on one program, the one [load_last_program] returned: the only
    message sent to the SL88 is the Program Change to it; the first child
    process is sfizz on its SFZ file, and the only others are the
    [jack_connect] helpers that could be run; and the loop starts with it as
    both the current and the requested program. *)
Theorem startup_in_sync (int_of_text : string → option Z) w tr st :
  main_startup int_of_text w = Done tr st →
  ∃ p log sfz_path,
    load_last_program int_of_text (last_prog_file w) = Return (p, log)
    ∧ SFZ_MAP !! p = Some sfz_path
    ∧ messages tr = [[0xC0; p]]
    ∧ processes tr = sfizz_cmd sfz_path :: jack_children (jack_spawns w)
    ∧ st = initial_state p (clock_start w).
Proof.
  intros Hdone.
  destruct (ports_usable_dec w) as [Hu|Hu].
  - destruct (open_ports_usable w Hu) as (tr0 & ports & Hports & Hlocal).
    destruct (main_startup_after_ports int_of_text w tr0 ports Hports)
      as (p & log & Hl & [sfz_path Hk] & Hm).
    rewrite Hm in Hdone. cbn zeta in Hdone.
    destruct (send_ok w); [|done]. destruct (spawn_ok w); [|done].
    pose proof (f_equal trace_of Hdone) as Htr. cbn [trace_of] in Htr.
    subst tr. injection Hdone as <-. exists p, log, sfz_path.
    do 2 (split; [done|]). rewrite Hk.
    destruct (local_only_quiet _ Hlocal) as [Hm0 Hp0].
    destruct (from_load_quiet log) as [Hm1 Hp1].
    change (Popen ?c :: ?l) with ([Popen c] ++ l).
    rewrite !messages_app, !processes_app, Hm0, Hp0, Hm1, Hp1.
    rewrite jack_autoconnect_messages, jack_autoconnect_processes.
    split; [done|]. split; [|done]. simpl. by rewrite app_nil_r.
  - destruct (open_ports_unusable w Hu) as (tr0 & Hports & _).
    unfold main_startup in Hdone. by rewrite Hports in Hdone.
Qed.

Lemma startup_in_sync_witness :
  ∃ p log sfz_path,
    load_last_program decimal_int (Contents "12") = Return (p, log)
    ∧ SFZ_MAP !! p = Some sfz_path
    ∧ messages (trace_of (main_startup decimal_int (sl88_world (Contents "12"))))
      = [[0xC0; p]]
    ∧ processes (trace_of (main_startup decimal_int (sl88_world (Contents "12"))))
      = sfizz_cmd sfz_path :: jack_children (fun _ _ => true)
    ∧ initial_state 12 0 = initial_state p 0.
Proof.
  apply (startup_in_sync decimal_int (sl88_world (Contents "12"))
           (trace_of (main_startup decimal_int (sl88_world (Contents "12"))))
           (initial_state 12 0)).
  vm_compute. reflexivity.
Defined.

Example startup_children :
  processes (trace_of (main_startup decimal_int (sl88_world (Contents "12"))))
  = [sfizz_cmd "/root/sfz/K18-Upright-Piano/K18-Upright-Piano.sfz";
     jack_connect_cmd "system:midi_capture_1" "sfizz-sl88:input";
     jack_connect_cmd "system:midi_capture_2" "sfizz-sl88:input";
     jack_connect_cmd "system:midi_capture_3" "sfizz-sl88:input";
     jack_connect_cmd "system:midi_capture_4" "sfizz-sl88:input";
     jack_connect_cmd "sfizz-sl88:output_1" "system:playback_1";
     jack_connect_cmd "sfizz-sl88:output_2" "system:playback_2"].
Proof. by vm_compute. Qed.

(** X13. Without usable ports (no port of the SL88 among the inputs or among
    the outputs, or one that fails to open) the startup calls [sys.exit(1)],
    and all it has done by then is open a port and log: no message has gone
    to the SL88 and nothing has been spawned. With usable ports it never
    calls [sys.exit]. *)
Theorem startup_sys_exit (int_of_text : string → option Z) w :
  (¬ ports_usable w →
   ∃ tr, main_startup int_of_text w = Failed tr (SystemExit 1)
         ∧ Forall local_only tr)
  ∧ (ports_usable w →
     ∀ tr code, main_startup int_of_text w ≠ Failed tr (SystemExit code)).
Proof.
  split.
  - intros Hu. destruct (open_ports_unusable w Hu) as (tr0 & Hports & Hlocal).
    exists tr0. unfold main_startup. by rewrite Hports.
  - intros Hu tr code.
    destruct (open_ports_usable w Hu) as (tr0 & ports & Hports & _).
    destruct (main_startup_after_ports int_of_text w tr0 ports Hports)
      as (p & log & _ & _ & Hm).
    rewrite Hm. cbn zeta. by destruct (send_ok w), (spawn_ok w).
Qed.

(** X14. The startup reaches the loop exactly when the ports are usable, the
    Program Change to the SL88 can be sent and sfizz can be spawned; the
    persisted file and the JACK connections cannot stop it. *)
Theorem startup_reaches_loop (int_of_text : string → option Z) w :
  (∃ tr st, main_startup int_of_text w = Done tr st)
  ↔ ports_usable w ∧ send_ok w = true ∧ spawn_ok w = true.
Proof.
  split.
  - intros (tr & st & Hdone).
    destruct (ports_usable_dec w) as [Hu|Hu].
    + destruct (open_ports_usable w Hu) as (tr0 & ports & Hports & _).
      destruct (main_startup_after_ports int_of_text w tr0 ports Hports)
        as (p & log & _ & _ & Hm).
      rewrite Hm in Hdone. cbn zeta in Hdone.
      by destruct (send_ok w), (spawn_ok w).
    + destruct (open_ports_unusable w Hu) as (tr0 & Hports & _).
      unfold main_startup in Hdone. by rewrite Hports in Hdone.
  - intros (Hu & Hs & Hp).
    destruct (open_ports_usable w Hu) as (tr0 & ports & Hports & _).
    destruct (main_startup_after_ports int_of_text w tr0 ports Hports)
      as (p & log & _ & _ & Hm).
    rewrite Hm, Hs, Hp. cbn zeta. by eexists _, _.
Qed.

(** X15. [jack_autoconnect] asks for the same six connections in the same
    order whatever happens to each: the four MIDI captures to the input of
    the sfizz client, then its two outputs to the playback ports. A
    [jack_connect] that cannot be run does not stop the ones after it. *)
Theorem jack_autoconnect_all (spawns : string → string → bool) :
  connections (jack_autoconnect spawns)
  = map (fun src => (src, midi_dest)) midi_sources ++ audio_pairs
  ∧ ∀ src dest spawned,
      JackConnect src dest spawned ∈ jack_autoconnect spawns →
      spawned = spawns src dest.
Proof.
  unfold jack_autoconnect, jack_connect, midi_sources, audio_pairs. simpl.
  split.
  - by repeat destruct (spawns _ _).
  - intros src dest spawned H.
    repeat match type of H with
           | context [spawns ?a ?b] => destruct (spawns a b) eqn:?
           end;
      simpl in H;
      repeat (apply elem_of_cons in H as [H|H];
              [try done; injection H as -> -> ->; congruence|]);
      by apply elem_of_nil in H.
Qed.

(** X16. After the startup nothing is loaded until the SL88 asks for another
    program: from the state the startup hands to the loop, iterations that
    poll nothing, other messages, or Program Changes to the program already
    forced, write nothing to the engine or to the file. *)
Theorem startup_then_settled (int_of_text : string → option Z) w tr st inps :
  main_startup int_of_text w = Done tr st →
  Forall (fun q => ∀ p', request q = Some p' → p' = current_program st) inps →
  Forall (fun it =>
      engine_writes it.2 = [] ∧ file_writes it.2 = []
      ∧ current_program it.1 = current_program st)
    (run inps st).1.
Proof.
  intros Hdone Hreq.
  assert (Hst : last_requested_program st = current_program st).
  { destruct (ports_usable_dec w) as [Hu|Hu].
    - destruct (open_ports_usable w Hu) as (tr0 & ports & Hports & _).
      destruct (main_startup_after_ports int_of_text w tr0 ports Hports)
        as (p & log & _ & _ & Hm).
      rewrite Hm in Hdone. cbn zeta in Hdone.
      destruct (send_ok w); [|done]. destruct (spawn_ok w); [|done].
      by injection Hdone as _ <-.
    - destruct (open_ports_unusable w Hu) as (tr0 & Hports & _).
      unfold main_startup in Hdone. by rewrite Hports in Hdone. }
  by apply settled_run.
Qed.

Lemma startup_then_settled_witness :
  Forall (fun it =>
      engine_writes it.2 = [] ∧ file_writes it.2 = []
      ∧ current_program it.1 = current_program (initial_state 12 0))
    (run [idle_at 1; change_at 2 12; idle_at 3] (initial_state 12 0)).1.
Proof.
  apply (startup_then_settled decimal_int (sl88_world (Contents "12"))
           (trace_of (main_startup decimal_int (sl88_world (Contents "12"))))
           (initial_state 12 0) [idle_at 1; change_at 2 12; idle_at 3]).
  - vm_compute. reflexivity.
  - repeat constructor; vm_compute; congruence.
Defined.



(** ** Programs outside the map *)

(** Every completed iteration of a run is a [tick] from the state the
    iterations before it left. *)
Lemma run_lookup inps :
  ∀ st k it,
    (run inps st).1 !! k = Some it →
    ∃ inp,
      inps !! k = Some inp
      ∧ tick inp (last_state st (take k (run inps st).1)) = Return it.
Proof.
  induction inps as [|inp rest IH]; intros st k it Hk; [done|].
  destruct (tick inp st) as [[st' tr]|e] eqn:Ht;
    [|by rewrite (run_cons_raise _ _ _ _ Ht) in Hk].
  rewrite (run_cons _ _ _ _ _ Ht) in *. cbn [fst] in *.
  destruct k as [|k]; simpl in Hk.
  - injection Hk as <-. exists inp. by rewrite take_0.
  - destruct (IH st' k it Hk) as (inp' & Hl & Ht').
    exists inp'. split; [done|]. by rewrite firstn_cons, last_state_cons.
Qed.

(** C4. A program that is not a key of [SFZ_MAP] is never loaded. In any
    run, from any state and whatever the clock shows, the request an
    iteration holds is the program of the last Program Change polled so far
    (the one held at the start if there was none); as long as that is a
    program outside the map, the iteration leaves it as the request, writes
    nothing to the engine or to the file and leaves [current_program] as
    the iteration before left it. Every command the engine is ever sent is
    the load command for the SFZ path of the request held at that
    iteration, a key. *)
Theorem unmapped_never_sent (inps : list tick_input) (st : RouterState) (p : Z) :
  SFZ_MAP !! p = None →
  ∀ k it,
    (run inps st).1 !! k = Some it →
    let held :=
      default (last_requested_program st)
        (snd <$> last (pc_events (take (S k) inps))) in
    last_requested_program it.1 = held
    ∧ (held = p →
       engine_writes it.2 = [] ∧ file_writes it.2 = []
       ∧ current_program it.1
         = current_program (last_state st (take k (run inps st).1)))
    ∧ ∀ cmd ok, (cmd, ok) ∈ engine_writes it.2 →
        ∃ sfz_path, SFZ_MAP !! held = Some sfz_path ∧ cmd = load_command sfz_path.
Proof.
  intros Hp k [st' tr] Hk held.
  assert (Hheld : last_requested_program st' = held)
    by apply (run_requested _ _ _ _ Hk).
  destruct (run_lookup _ _ _ _ Hk) as (inp & _ & Ht).
  split; [done|]. cbn [fst snd]. rewrite <- Hheld.
  apply tick_cases in Ht as [_ [(_ & sfz_path & Hm & Hf & He & _)|(_ & Hf & He & Hc)]].
  - split.
    + intros E. rewrite E, Hp in Hm. discriminate Hm.
    + intros cmd ok Hin. rewrite He in Hin.
      apply list_elem_of_singleton in Hin. injection Hin as -> _. eauto.
  - split; [done|]. intros cmd ok Hin. rewrite He in Hin.
    by apply elem_of_nil in Hin.
Qed.

Lemma unmapped_never_sent_witness :
  let inps := [change_at 0.125 99; idle_at 0.75; idle_at 3600] in
  let st := initial_state 10 0 in
  let it : RouterState * list effect :=
    ({| current_program := 10; last_requested_program := 99;
        last_request_time := 0.125 |}, []) in
  let held :=
    default (last_requested_program st)
      (snd <$> last (pc_events (take 3 inps))) in
  last_requested_program it.1 = held
  ∧ (held = 99 →
     engine_writes it.2 = [] ∧ file_writes it.2 = []
     ∧ current_program it.1
       = current_program (last_state st (take 2 (run inps st).1)))
  ∧ ∀ cmd ok, (cmd, ok) ∈ engine_writes it.2 →
      ∃ sfz_path, SFZ_MAP !! held = Some sfz_path ∧ cmd = load_command sfz_path.
Proof.
  intros inps st it.
  apply (unmapped_never_sent inps st 99 ltac:(reflexivity) 2%nat it).
  vm_compute. reflexivity.
Defined.
